(** * Dual: directive parser, header resolver, notepad patch engine and
    step executor

    A shallow embedding of
      - [parseAIResponse] and [robustJsonParse]            (directive parser),
      - [findHeaderLineIndex]                               (header resolver),
      - [applyNotepadModifications]                         (patch engine),
      - [getThinkingConfigForGeminiModel] and [executeStep] (step executor),
    with the properties of the specification proved about them.

    JavaScript strings are sequences of UTF-16 code units; they are modelled
    as lists of code units so that [length], [substring], [trim] and the
    regular expressions of the source read as they do there. *)

From Stdlib Require Import String Ascii DecimalString.
From Stdlib Require Import List NArith ZArith Bool Lia.
Import ListNotations.

Set Implicit Arguments.

(** ** JavaScript strings and the built-ins the sources call *)

Module Js.

Local Open Scope N_scope.

Definition char := N.
Definition str := list char.

Definition char_eqb (a b : char) : bool := N.eqb a b.

Fixpoint str_eqb (a b : str) : bool :=
  match a, b with
  | [], [] => true
  | x :: a', y :: b' => char_eqb x y && str_eqb a' b'
  | _, _ => false
  end.

Definition in_range (lo hi c : char) : bool := (N.leb lo c && N.leb c hi)%bool.

(** Source literals: the UTF-8 bytes of a Rocq string literal decoded to
    UTF-16 code units (code points above the BMP become a surrogate pair). *)
Fixpoint bytes_of (s : string) : list N :=
  match s with
  | EmptyString => []
  | String a r => N_of_ascii a :: bytes_of r
  end.

Definition cont (b : N) : N := N.land b 63.

Fixpoint utf16_of_utf8 (bs : list N) : str :=
  match bs with
  | [] => []
  | b1 :: r1 =>
    if N.ltb b1 128 then b1 :: utf16_of_utf8 r1
    else match r1 with
    | [] => [b1]
    | b2 :: r2 =>
      if N.ltb b1 224 then
        (N.land b1 31 * 64 + cont b2)%N :: utf16_of_utf8 r2
      else match r2 with
      | [] => [b1; b2]
      | b3 :: r3 =>
        if N.ltb b1 240 then
          (N.land b1 15 * 4096 + cont b2 * 64 + cont b3)%N :: utf16_of_utf8 r3
        else match r3 with
        | [] => [b1; b2; b3]
        | b4 :: r4 =>
          let cp := (N.land b1 7 * 262144 + cont b2 * 4096
                     + cont b3 * 64 + cont b4)%N in
          let v := (cp - 65536)%N in
          (55296 + N.shiftr v 10)%N :: (56320 + N.land v 1023)%N
            :: utf16_of_utf8 r4
        end
      end
    end
  end.

Definition js (s : string) : str := utf16_of_utf8 (bytes_of s).

(** Named code units. *)
Definition ch (a : ascii) : char := N_of_ascii a.
Definition LF : char := 10.
Definition QUOTE : char := 34.
Definition BACKSLASH : char := 92.
Definition APOSTROPHE : char := 39.
Definition DOLLAR : char := ch "$".

(** A source literal that contains double quotes, written with an
    apostrophe in the place of each double quote. *)
Definition qq (s : string) : str :=
  map (fun c => if N.eqb c APOSTROPHE then QUOTE else c) (js s).

(** [WhiteSpace] and [LineTerminator] of ECMAScript: the class [\s] and the
    characters removed by [trim]. *)
Definition isLineTerminator (c : char) : bool :=
  (char_eqb c 10 || char_eqb c 13 || char_eqb c 8232 || char_eqb c 8233)%bool.

Definition isWhiteSpace (c : char) : bool :=
  (in_range 9 13 c || char_eqb c 32 || char_eqb c 160 || char_eqb c 5760
   || in_range 8192 8202 c || char_eqb c 8232 || char_eqb c 8233
   || char_eqb c 8239 || char_eqb c 8287 || char_eqb c 12288
   || char_eqb c 65279)%bool.

(** The class [\w]: [A-Za-z0-9_]. *)
Definition isWord (c : char) : bool :=
  (in_range 65 90 c || in_range 97 122 c || in_range 48 57 c
   || char_eqb c 95)%bool.

(** Longest prefix of [s] all of whose code units satisfy [p], removed. *)
Fixpoint dropWhile (p : char -> bool) (s : str) : str :=
  match s with
  | [] => []
  | c :: r => if p c then dropWhile p r else s
  end.

(** Longest suffix of [s] all of whose code units satisfy [p], removed. *)
Definition dropWhileEnd (p : char -> bool) (s : str) : str :=
  rev (dropWhile p (rev s)).

Definition trimStart (s : str) : str := dropWhile isWhiteSpace s.
Definition trimEnd (s : str) : str := dropWhileEnd isWhiteSpace s.
Definition trim (s : str) : str := trimEnd (trimStart s).

(** [String.prototype.toLowerCase] on the Basic Latin and Latin-1 blocks
    (A-Z, and U+00C0..U+00DE but the multiplication sign); code units of
    other blocks are kept as they are: the quotes, colons and CJK ideographs
    the sources handle have no case. *)
Definition lowerChar (c : char) : char :=
  if in_range 65 90 c then (c + 32)%N
  else if (in_range 192 222 c && negb (char_eqb c 215))%bool then (c + 32)%N
  else c.

Definition toLowerCase (s : str) : str := map lowerChar s.

Fixpoint startsWith (p s : str) : bool :=
  match p, s with
  | [], _ => true
  | _ :: _, [] => false
  | a :: p', b :: s' => char_eqb a b && startsWith p' s'
  end.

Definition endsWith (p s : str) : bool := startsWith (rev p) (rev s).

(** First occurrence of [p] in [s]: the text before it and the text after
    it. The empty pattern occurs at position 0. *)
Fixpoint splitAtFirst (p s : str) : option (str * str) :=
  if startsWith p s then Some ([], skipn (length p) s)
  else match s with
  | [] => None
  | c :: r =>
    match splitAtFirst p r with
    | Some (b, a) => Some (c :: b, a)
    | None => None
    end
  end.

Definition includes (p s : str) : bool :=
  match splitAtFirst p s with Some _ => true | None => false end.

(** [s.lastIndexOf(p, from)]: the largest index [i <= from] at which [p]
    occurs, -1 if there is none. [lastIndexOfFrom] walks the string with the
    current index and keeps the last hit. *)
Fixpoint lastIndexOfAux (p s : str) (i : nat) (from : nat) (best : Z) : Z :=
  let best' := if (Nat.leb i from && startsWith p s)%bool
               then Z.of_nat i else best in
  match s with
  | [] => best'
  | _ :: r => lastIndexOfAux p r (S i) from best'
  end.

Definition lastIndexOfFrom (p s : str) (from : Z) : Z :=
  if (from <? 0)%Z
  then (if startsWith p s then 0%Z else (-1)%Z)
  else lastIndexOfAux p s 0%nat (Z.to_nat from) (-1)%Z.

Definition lastIndexOf (p s : str) : Z :=
  lastIndexOfAux p s 0%nat (length s) (-1)%Z.

(** [s.substring(a, b)] for [0 <= a <= b]. *)
Definition substring (a b : nat) (s : str) : str :=
  firstn (b - a) (skipn a s).

(** [s.split(sep)] for a separator of one code unit: never empty. *)
Fixpoint split (sep : char) (s : str) : list str :=
  match s with
  | [] => [[]]
  | c :: r =>
    if char_eqb c sep then [] :: split sep r
    else match split sep r with
         | [] => [[c]]
         | l :: ls => (c :: l) :: ls
         end
  end.

(** [lines.join(sep)]. *)
Fixpoint join (sep : str) (ls : list str) : str :=
  match ls with
  | [] => []
  | [l] => l
  | l :: ls' => l ++ sep ++ join sep ls'
  end.

(** [GetSubstitution] for a match without capture groups: in the
    replacement text [$$] is a dollar sign, [$&] the matched text,
    [$`] the text before the match and [$'] the text after it; any other
    dollar sign stands for itself. *)
Fixpoint GetSubstitution (matched before after repl : str) : str :=
  match repl with
  | [] => []
  | c :: r =>
    if char_eqb c DOLLAR then
      match r with
      | d :: r' =>
        if char_eqb d DOLLAR then DOLLAR :: GetSubstitution matched before after r'
        else if char_eqb d (ch "&") then matched ++ GetSubstitution matched before after r'
        else if char_eqb d (ch "`") then before ++ GetSubstitution matched before after r'
        else if char_eqb d (ch "'") then after ++ GetSubstitution matched before after r'
        else c :: GetSubstitution matched before after r
      | [] => [c]
      end
    else c :: GetSubstitution matched before after r
  end.

(** [s.replace(p, repl)] with a string pattern [p]: the first occurrence of
    the code units of [p] is replaced, [s] is returned when there is none. *)
Definition replaceString (p repl s : str) : str :=
  match splitAtFirst p s with
  | Some (b, a) => b ++ GetSubstitution p b a repl ++ a
  | None => s
  end.

(** [s.replace(new RegExp(src, 'g'), repl)] where [src] is a pattern that
    matches exactly the code units of [p] in sequence: matches are found left
    to right and do not overlap; [skip] counts the code units of the current
    match still to be passed over; the empty pattern matches before every
    code unit and at the end. [before] is the input up to the position. *)
Fixpoint replaceLiteralAll (p repl : str) (before s : str) (skip : nat) : str :=
  match s with
  | [] =>
    match skip, p with
    | O, [] => GetSubstitution [] before [] repl
    | _, _ => []
    end
  | c :: r =>
    match skip with
    | S k => replaceLiteralAll p repl (before ++ [c]) r k
    | O =>
      if startsWith p s then
        match p with
        | [] => GetSubstitution [] before s repl
                ++ c :: replaceLiteralAll p repl (before ++ [c]) r 0%nat
        | _ :: p' => GetSubstitution p before (skipn (length p) s) repl
                ++ replaceLiteralAll p repl (before ++ [c]) r (length p')
        end
      else c :: replaceLiteralAll p repl (before ++ [c]) r 0%nat
    end
  end.

(** Decimal text of a number, as a template literal prints it. *)
Definition decimal (n : nat) : str :=
  js (NilZero.string_of_uint (Nat.to_uint n)).

End Js.

Import Js.

(** ** JSON values and [JSON.parse] *)

Module Json.

Local Open Scope N_scope.

(** A parsed JSON value. Nothing in the sources looks at the value of a
    number, so a number keeps the text it was written with. The members of
    an object are kept in source order; a later member shadows an earlier
    one of the same name. *)
#[warnings="-register-all"]
Inductive json : Type :=
| JNull
| JBool (b : bool)
| JNumber (lexeme : str)
| JString (s : str)
| JArray (items : list json)
| JObject (members : list (str * json)).

(** Property lookup [obj.k] on a parsed value: [None] is [undefined]. *)
Fixpoint lookup (k : str) (members : list (str * json)) : option json :=
  match members with
  | [] => None
  | (k', v) :: r =>
    match lookup k r with
    | Some v' => Some v'
    | None => if str_eqb k k' then Some v else None
    end
  end.

Definition prop (k : str) (v : json) : option json :=
  match v with
  | JObject members => lookup k members
  | _ => None
  end.

(** JSON white space: space, tab, line feed, carriage return. *)
Definition isJsonWs (c : char) : bool :=
  (char_eqb c 32 || char_eqb c 9 || char_eqb c 10 || char_eqb c 13)%bool.

Definition skipWs (s : str) : str := dropWhile isJsonWs s.

Definition isDigit (c : char) : bool := in_range 48 57 c.

Definition hexVal (c : char) : option N :=
  if in_range 48 57 c then Some (c - 48)
  else if in_range 97 102 c then Some (c - 87)
  else if in_range 65 70 c then Some (c - 55)
  else None.

(** The text of a string after its opening quote: the decoded code units
    and the input after the closing quote. *)
Fixpoint parseStringBody (s : str) : option (str * str) :=
  match s with
  | [] => None
  | c :: r =>
    if char_eqb c QUOTE then Some ([], r)
    else if N.ltb c 32 then None
    else if char_eqb c BACKSLASH then
      match r with
      | [] => None
      | e :: r1 =>
        let simple (d : char) :=
          match parseStringBody r1 with
          | Some (t, rest) => Some (d :: t, rest)
          | None => None
          end in
        if char_eqb e QUOTE then simple QUOTE
        else if char_eqb e BACKSLASH then simple BACKSLASH
        else if char_eqb e (ch "/") then simple (ch "/")
        else if char_eqb e (ch "b") then simple 8
        else if char_eqb e (ch "f") then simple 12
        else if char_eqb e (ch "n") then simple 10
        else if char_eqb e (ch "r") then simple 13
        else if char_eqb e (ch "t") then simple 9
        else if char_eqb e (ch "u") then
          match r1 with
          | h1 :: h2 :: h3 :: h4 :: r2 =>
            match hexVal h1, hexVal h2, hexVal h3, hexVal h4 with
            | Some a, Some b, Some c', Some d =>
              match parseStringBody r2 with
              | Some (t, rest) =>
                Some ((a * 4096 + b * 256 + c' * 16 + d) :: t, rest)
              | None => None
              end
            | _, _, _, _ => None
            end
          | _ => None
          end
        else None
      end
    else
      match parseStringBody r with
      | Some (t, rest) => Some (c :: t, rest)
      | None => None
      end
  end.

(** Longest prefix of digits, and the rest. *)
Fixpoint spanDigits (s : str) : str * str :=
  match s with
  | [] => ([], [])
  | c :: r =>
    if isDigit c then let (d, rest) := spanDigits r in (c :: d, rest)
    else ([], s)
  end.

(** A JSON number: an optional minus sign; a zero, or a digit from 1 to 9
    and then any digits; optionally a point and one digit or more; optionally
    [e] or [E], an optional sign and one digit or more. *)
Definition parseNumber (s : str) : option (str * str) :=
  let (sign, s1) :=
    match s with
    | c :: r => if char_eqb c (ch "-") then ([c], r) else ([], s)
    | [] => ([], s)
    end in
  let int :=
    match s1 with
    | c :: r =>
      if char_eqb c (ch "0") then Some ([c], r)
      else if isDigit c then let (d, rest) := spanDigits s1 in Some (d, rest)
      else None
    | [] => None
    end in
  match int with
  | None => None
  | Some (ip, s2) =>
    let frac :=
      match s2 with
      | c :: r =>
        if char_eqb c (ch ".") then
          match spanDigits r with
          | ([], _) => None
          | (d, rest) => Some (c :: d, rest)
          end
        else Some ([], s2)
      | [] => Some ([], s2)
      end in
    match frac with
    | None => None
    | Some (fp, s3) =>
      let expo :=
        match s3 with
        | c :: r =>
          if (char_eqb c (ch "e") || char_eqb c (ch "E"))%bool then
            let (sg, r') :=
              match r with
              | g :: r0 =>
                if (char_eqb g (ch "+") || char_eqb g (ch "-"))%bool
                then ([g], r0) else ([], r)
              | [] => ([], r)
              end in
            match spanDigits r' with
            | ([], _) => None
            | (d, rest) => Some (c :: sg ++ d, rest)
            end
          else Some ([], s3)
        | [] => Some ([], s3)
        end in
      match expo with
      | None => None
      | Some (ep, s4) => Some (sign ++ ip ++ fp ++ ep, s4)
      end
    end
  end.

(** The JSON grammar by recursive descent. [fuel] bounds the nesting of
    calls; [JSON_parse] supplies two units for every code unit of the input,
    which the descent cannot use up: every second call consumes input. *)
Fixpoint parseValue (fuel : nat) (s : str) {struct fuel} : option (json * str) :=
  match fuel with
  | O => None
  | S f =>
    match skipWs s with
    | [] => None
    | c :: r =>
      if char_eqb c (ch "{") then
        match skipWs r with
        | c2 :: r2 =>
          if char_eqb c2 (ch "}") then Some (JObject [], r2)
          else match parseMembers f (skipWs r) with
               | Some (ms, rest) => Some (JObject ms, rest)
               | None => None
               end
        | [] => None
        end
      else if char_eqb c (ch "[") then
        match skipWs r with
        | c2 :: r2 =>
          if char_eqb c2 (ch "]") then Some (JArray [], r2)
          else match parseElements f (skipWs r) with
               | Some (vs, rest) => Some (JArray vs, rest)
               | None => None
               end
        | [] => None
        end
      else if char_eqb c QUOTE then
        match parseStringBody r with
        | Some (t, rest) => Some (JString t, rest)
        | None => None
        end
      else if startsWith (js "true") (c :: r) then Some (JBool true, skipn 4 (c :: r))
      else if startsWith (js "false") (c :: r) then Some (JBool false, skipn 5 (c :: r))
      else if startsWith (js "null") (c :: r) then Some (JNull, skipn 4 (c :: r))
      else match parseNumber (c :: r) with
           | Some (lex, rest) => Some (JNumber lex, rest)
           | None => None
           end
    end
  end

with parseElements (fuel : nat) (s : str) {struct fuel} : option (list json * str) :=
  match fuel with
  | O => None
  | S f =>
    match parseValue f s with
    | None => None
    | Some (v, r) =>
      match skipWs r with
      | c :: r1 =>
        if char_eqb c (ch ",") then
          match parseElements f r1 with
          | Some (vs, rest) => Some (v :: vs, rest)
          | None => None
          end
        else if char_eqb c (ch "]") then Some ([v], r1)
        else None
      | [] => None
      end
    end
  end

with parseMembers (fuel : nat) (s : str) {struct fuel}
  : option (list (str * json) * str) :=
  match fuel with
  | O => None
  | S f =>
    match skipWs s with
    | q :: r0 =>
      if char_eqb q QUOTE then
        match parseStringBody r0 with
        | None => None
        | Some (k, r1) =>
          match skipWs r1 with
          | c :: r2 =>
            if char_eqb c (ch ":") then
              match parseValue f r2 with
              | None => None
              | Some (v, r3) =>
                match skipWs r3 with
                | d :: r4 =>
                  if char_eqb d (ch ",") then
                    match parseMembers f r4 with
                    | Some (ms, rest) => Some ((k, v) :: ms, rest)
                    | None => None
                    end
                  else if char_eqb d (ch "}") then Some ([(k, v)], r4)
                  else None
                | [] => None
                end
              end
            else None
          | [] => None
          end
        end
      else None
    | [] => None
    end
  end.

(** [JSON.parse(text)]: [None] when it throws a [SyntaxError]. *)
Definition JSON_parse (text : str) : option json :=
  match parseValue (2 * length text + 2) text with
  | Some (v, rest) =>
    match skipWs rest with
    | [] => Some v
    | _ :: _ => None
    end
  | None => None
  end.

End Json.

Import Json.

(** ** The directive parser *)

Module Parser.

Local Open Scope N_scope.

(** [cleaned.replace(/,(\s*[}\]])/g, '$1')]: a comma followed by white space
    and a closing brace or bracket is removed. The white space and the closer
    of a match hold no comma, so no match is missed by resuming right after
    the comma. *)
Definition beforeCloser (s : str) : bool :=
  match dropWhile isWhiteSpace s with
  | c :: _ => (char_eqb c (ch "}") || char_eqb c (ch "]"))%bool
  | [] => false
  end.

Fixpoint stripTrailingCommas (s : str) : str :=
  match s with
  | [] => []
  | c :: r =>
    if (char_eqb c (ch ",") && beforeCloser r)%bool then stripTrailingCommas r
    else c :: stripTrailingCommas r
  end.

(** [.replace(/\/\/.*$/gm, '')]: from two slashes to the end of the line
    (the next line terminator, which stays, or the end of the text).
    [inComment] holds while the position is inside such a match. *)
Fixpoint stripLineComments (inComment : bool) (s : str) : str :=
  match s with
  | [] => []
  | c :: r =>
    if inComment then
      if isLineTerminator c then c :: stripLineComments false r
      else stripLineComments true r
    else if (char_eqb c (ch "/") && startsWith [ch "/"] r)%bool
    then stripLineComments true r
    else c :: stripLineComments false r
  end.

(** [.replace(/\/\*[\s\S]*?\*\//g, '')]: from a slash and a star to the
    first star and slash after them; an opener with no closer is kept.
    [skip] counts the code units of the current match still to be removed. *)
Fixpoint stripBlockComments (skip : nat) (s : str) : str :=
  match s with
  | [] => []
  | c :: r =>
    match skip with
    | S k => stripBlockComments k r
    | O =>
      if startsWith (js "/*") s then
        match splitAtFirst (js "*/") (skipn 2 s) with
        | Some (body, _) => stripBlockComments (1 + length body + 2) r
        | None => c :: stripBlockComments 0 r
        end
      else c :: stripBlockComments 0 r
    end
  end.

(** [robustJsonParse]: [JSON.parse] as it is, then after removing trailing
    commas, then after removing comments too; [null] when the text is empty
    or all three throw. *)
Definition robustJsonParse (jsonStr : str) : json :=
  match jsonStr with
  | [] => JNull
  | _ :: _ =>
    match JSON_parse jsonStr with
    | Some v => v
    | None =>
      let cleaned := stripTrailingCommas jsonStr in
      match JSON_parse cleaned with
      | Some v => v
      | None =>
        let noComments :=
          stripBlockComments 0 (stripLineComments false cleaned) in
        match JSON_parse noComments with
        | Some v => v
        | None => JNull
        end
      end
    end
  end.

(** The fenced-block pattern: three backticks, an optional [json] in any
    letter case, white space, the captured text (as short as possible),
    white space, three backticks. *)
Definition fence : str := js "```".

Definition startsWithJson (s : str) : bool :=
  match s with
  | a :: b :: c :: d :: _ =>
    ((char_eqb a (ch "j") || char_eqb a (ch "J"))
     && (char_eqb b (ch "s") || char_eqb b (ch "S"))
     && (char_eqb c (ch "o") || char_eqb c (ch "O"))
     && (char_eqb d (ch "n") || char_eqb d (ch "N")))%bool
  | _ => false
  end.

(** The shortest capture from [s] on after which white space and the closing
    fence follow: the capture and the text after the closing fence. *)
Fixpoint findClose (s : str) : option (str * str) :=
  let t := dropWhile isWhiteSpace s in
  if startsWith fence t then Some ([], skipn 3 t)
  else match s with
  | [] => None
  | c :: r =>
    match findClose r with
    | Some (cap, rest) => Some (c :: cap, rest)
    | None => None
    end
  end.

(** A match of the pattern that starts at the head of [s]: the matched text
    (group 0) and the capture (group 1). *)
Definition matchBlockAt (s : str) : option (str * str) :=
  if startsWith fence s then
    let a := skipn 3 s in
    let a' := if startsWithJson a then skipn 4 a else a in
    match findClose (dropWhile isWhiteSpace a') with
    | Some (cap, rest) => Some (firstn (length s - length rest) s, cap)
    | None => None
    end
  else None.

(** [[...responseText.matchAll(jsonBlockRegex)]]: the matches from left to
    right, each searched from the end of the one before. [skip] counts the
    code units of the current match still to be passed over. *)
Fixpoint matchAllBlocks (skip : nat) (s : str) : list (str * str) :=
  match s with
  | [] => []
  | _ :: r =>
    match skip with
    | S k => matchAllBlocks k r
    | O =>
      match matchBlockAt s with
      | Some (whole, cap) => (whole, cap) :: matchAllBlocks (length whole - 1) r
      | None => matchAllBlocks 0 r
      end
    end
  end.

Record NotepadUpdatePayload : Type := {
  modifications : option (list json);
  error : option str
}.

Record ParsedAIResponse : Type := {
  spokenText : str;
  notepadUpdate : option NotepadUpdatePayload;
  discussionShouldEnd : bool
}.

(** Strategy 2 of [parseAIResponse]: with no code block, the text from the
    last opening brace at or before the last known key to the last closing
    brace of the reply. *)
Definition knownKeys : list str :=
  [qq "'notepad_modifications'"; qq "'discussion_complete'"].

Definition heuristicCandidate (responseText : str) : option str :=
  let lastKeyIndex :=
    fold_left (fun lastKeyIndex key =>
                 let idx := lastIndexOf key responseText in
                 if (lastKeyIndex <? idx)%Z then idx else lastKeyIndex)
              knownKeys (-1)%Z in
  if (lastKeyIndex =? -1)%Z then None
  else
    let openBraceIndex := lastIndexOfFrom [ch "{"] responseText lastKeyIndex in
    let closeBraceIndex := lastIndexOf [ch "}"] responseText in
    if (negb (openBraceIndex =? -1)%Z && negb (closeBraceIndex =? -1)%Z
        && (openBraceIndex <? closeBraceIndex)%Z)%bool
    then Some (substring (Z.to_nat openBraceIndex)
                         (Z.to_nat closeBraceIndex + 1) responseText)
    else None.

(** [parsed && typeof parsed === 'object']: an object or an array. *)
Definition isObject (v : json) : bool :=
  match v with
  | JObject _ | JArray _ => true
  | _ => false
  end.

Definition parsingErrorText : str := js "Failed to parse AI JSON response.".

(** [jsonCandidate] and [textToRemove]: group 1 and group 0 of the last
    code block, or else the candidate of the heuristic search. *)
Definition selectCandidate (matches : list (str * str)) (responseText : str)
  : option str * option str :=
  match rev matches with
  | (whole, cap) :: _ => (Some cap, Some whole)
  | [] =>
    match heuristicCandidate responseText with
    | Some c => (Some c, Some c)
    | None => (None, None)
    end
  end.

Definition parseAIResponse (responseText : str) : ParsedAIResponse :=
  let matches := matchAllBlocks 0 responseText in
  let jsonCandidate := fst (selectCandidate matches responseText) in
  let textToRemove := snd (selectCandidate matches responseText) in
  (* spokenText, notepadModifications, discussionShouldEnd, parsingError *)
  let '(spoken, notepadModifications, shouldEnd, parsingError) :=
    match jsonCandidate with
    | Some ((_ :: _) as cand) =>
      let parsed := robustJsonParse cand in
      if isObject parsed then
        let mods :=
          match prop (js "notepad_modifications") parsed with
          | Some (JArray items) => items
          | _ => []
          end in
        let ends :=
          match prop (js "discussion_complete") parsed with
          | Some (JBool b) => b
          | _ => false
          end in
        let spoken :=
          match textToRemove with
          | Some ((_ :: _) as t) =>
            if endsWith t responseText
            then trim (firstn (length responseText - length t) responseText)
            else trim (replaceString t [] responseText)
          | _ => responseText
          end in
        (spoken, mods, ends, None)
      else
        (responseText, [], false,
         match matches with
         | _ :: _ => Some parsingErrorText
         | [] => None
         end)
    | _ => (responseText, [], false, None)
    end in
  let notepadActionText :=
    match notepadModifications with
    | _ :: _ => js "修改了记事本 (" ++ decimal (length notepadModifications)
                ++ js " 项操作)"
    | [] => []
    end in
  let discussionActionText := if shouldEnd then js "建议结束讨论" else [] in
  let spoken' :=
    match trim spoken with
    | _ :: _ => spoken
    | [] =>
      match notepadActionText, discussionActionText with
      | _ :: _, _ :: _ =>
        js "(AI " ++ notepadActionText ++ js "并" ++ discussionActionText ++ js ")"
      | _ :: _, [] => js "(AI " ++ notepadActionText ++ js ")"
      | [], _ :: _ => js "(AI " ++ discussionActionText ++ js ")"
      | [], [] =>
        match parsingError, notepadModifications, shouldEnd with
        | None, _ :: _, _ | None, _, true => js "(AI process complete)"
        | _, _, _ => spoken
        end
      end
    end in
  let update :=
    match notepadModifications, parsingError with
    | [], None => None
    | _, _ =>
      Some {| modifications :=
                match notepadModifications with
                | _ :: _ => Some notepadModifications
                | [] => None
                end;
              error := parsingError |}
    end in
  {| spokenText := spoken'; notepadUpdate := update;
     discussionShouldEnd := shouldEnd |}.

End Parser.

Import Parser.

(** ** The header resolver and the patch engine *)

Module Notepad.

Local Open Scope N_scope.

(** *** [findHeaderLineIndex] *)

Record HeaderLine : Type := { index : Z; level : nat }.

Definition notFound : HeaderLine := {| index := (-1)%Z; level := 0%nat |}.

Definition isOneOf (cs : str) (c : char) : bool := existsb (char_eqb c) cs.

(** The last code unit removed when [p] holds of it: [replace(/[...]$/, '')]. *)
Definition dropLastIf (p : char -> bool) (s : str) : str :=
  match rev s with
  | c :: r => if p c then rev r else s
  | [] => s
  end.

Definition replaceChars (from : str) (to : char) (s : str) : str :=
  map (fun c => if isOneOf from c then to else c) s.

Definition normalize (s : str) : str :=
  let s := dropWhile (fun c => (isOneOf (js "#*_-") c || isWhiteSpace c)%bool) s in
  let s := dropWhileEnd (isOneOf (js "*_~")) s in
  let s := trim s in
  let s := toLowerCase s in
  let s := replaceChars (js "“”") QUOTE s in
  let s := replaceChars (js "‘’") APOSTROPHE s in
  let s := replaceChars (js "：") (ch ":") s in
  let s := dropLastIf (isOneOf (js ":：.。.")) s in
  trim s.

(** [s.replace(/[^\w一-龥]/g, '')]. *)
Definition superClean (s : str) : str :=
  filter (fun c => (isWord c || in_range 19968 40869 c)%bool) s.

Definition isHash (c : char) : bool := char_eqb c (ch "#").

Definition noLineTerminator (s : str) : bool :=
  forallb (fun c => negb (isLineTerminator c)) s.

(** The standard-header pattern of step A (white space, one hash or more,
    white space, the text up to the end): the number of hashes and the text
    after them and the white space that follows; the dot matches no line
    terminator, so the match fails when one is left in that text. *)
Definition headerMatch (line : str) : option (nat * str) :=
  let afterWs := dropWhile isWhiteSpace line in
  let afterHashes := dropWhile isHash afterWs in
  let hashes := (length afterWs - length afterHashes)%nat in
  let text := dropWhile isWhiteSpace afterHashes in
  if (Nat.ltb 0 hashes && noLineTerminator text)%bool
  then Some (hashes, text) else None.

Definition isBoldMarker (s : str) : bool :=
  (startsWith (js "**") s || startsWith (js "__") s)%bool.

(** The bold-line pattern of step B from after its opening marker (two
    stars or two underscores): its second group, the shortest text without
    line terminator after which a marker and only white space follow. *)
Fixpoint boldInner (body : str) : option str :=
  if (isBoldMarker body && forallb isWhiteSpace (skipn 2 body))%bool
  then Some []
  else match body with
  | [] => None
  | c :: r =>
    if isLineTerminator c then None
    else match boldInner r with
         | Some t => Some (c :: t)
         | None => None
         end
  end.

Definition boldMatch (line : str) : option str :=
  if isBoldMarker line then boldInner (skipn 2 line) else None.

(** Steps A, B and C of the first loop on a trimmed line that is not empty:
    the level and the header text (empty when the line is no candidate). *)
Definition classify (line : str) : nat * str :=
  match headerMatch line with
  | Some (hashes, text) => (hashes, trim text)
  | None =>
    match boldMatch line with
    | Some inner => (4%nat, trim inner)
    | None =>
      if Nat.ltb (length line) 100 then (3%nat, line) else (0%nat, [])
    end
  end.

Definition eitherIncludes (a b : str) : bool := (includes b a || includes a b)%bool.

(** The three tests of the first loop on a header text. *)
Definition headerMatches (normalizedTarget superCleanTarget headerText : str) : bool :=
  let normalizedHeader := normalize headerText in
  let superCleanHeader := superClean normalizedHeader in
  (str_eqb normalizedHeader normalizedTarget
   || (Nat.ltb 2 (length normalizedTarget)
       && eitherIncludes normalizedHeader normalizedTarget)
   || (Nat.ltb 2 (length superCleanTarget) && Nat.ltb 2 (length superCleanHeader)
       && (str_eqb superCleanHeader superCleanTarget
           || eitherIncludes superCleanHeader superCleanTarget)))%bool.

(** The first loop, from line number [i] on. *)
Fixpoint structuralPass (normalizedTarget superCleanTarget : str)
    (i : nat) (lines : list str) : option HeaderLine :=
  match lines with
  | [] => None
  | l :: rest =>
    let line := trim l in
    let next := structuralPass normalizedTarget superCleanTarget (S i) rest in
    match line with
    | [] => next
    | _ :: _ =>
      let (lvl, headerText) := classify line in
      match headerText with
      | [] => next
      | _ :: _ =>
        if headerMatches normalizedTarget superCleanTarget headerText
        then Some {| index := Z.of_nat i; level := lvl |}
        else next
      end
    end
  end.

(** The last pass: any line that is not blank and contains the target or is
    contained in it. *)
Fixpoint fallbackPass (normalizedTarget : str) (i : nat) (lines : list str)
  : option HeaderLine :=
  match lines with
  | [] => None
  | l :: rest =>
    let line := toLowerCase (trim l) in
    match line with
    | _ :: _ =>
      if eitherIncludes line normalizedTarget
      then Some {| index := Z.of_nat i; level := 2%nat |}
      else fallbackPass normalizedTarget (S i) rest
    | [] => fallbackPass normalizedTarget (S i) rest
    end
  end.

Definition findHeaderLineIndex (lines : list str) (targetHeader : str) : HeaderLine :=
  match targetHeader with
  | [] => notFound
  | _ :: _ =>
    let normalizedTarget := normalize targetHeader in
    let superCleanTarget := superClean normalizedTarget in
    match normalizedTarget, superCleanTarget with
    | [], [] => notFound
    | _, _ =>
      match structuralPass normalizedTarget superCleanTarget 0 lines with
      | Some h => h
      | None =>
        match fallbackPass normalizedTarget 0 lines with
        | Some h => h
        | None => notFound
        end
      end
    end
  end.

(** *** [applyNotepadModifications] *)

(** A directive as the engine receives it: the object of the reply, read
    through the type [NotepadAction]. The engine switches on the text of
    [action]; a field that the variant of that tag does not have is never
    read. [all] is optional. *)
Record NotepadAction : Type := {
  action : str;
  content : str;
  header : str;
  find : str;
  replacement : str;
  all : option bool
}.

Definition replace_all (content : str) : NotepadAction :=
  {| action := js "replace_all"; content := content; header := [];
     find := []; replacement := []; all := None |}.
Definition append (content : str) : NotepadAction :=
  {| action := js "append"; content := content; header := [];
     find := []; replacement := []; all := None |}.
Definition prepend (content : str) : NotepadAction :=
  {| action := js "prepend"; content := content; header := [];
     find := []; replacement := []; all := None |}.
Definition replace_section (header content : str) : NotepadAction :=
  {| action := js "replace_section"; content := content; header := header;
     find := []; replacement := []; all := None |}.
Definition append_to_section (header content : str) : NotepadAction :=
  {| action := js "append_to_section"; content := content; header := header;
     find := []; replacement := []; all := None |}.
Definition search_and_replace (find replacement : str) (all : option bool)
  : NotepadAction :=
  {| action := js "search_and_replace"; content := []; header := [];
     find := find; replacement := replacement; all := all |}.

(** Modelled from the spec: [escapeRegExp] of [./commonUtils] is not among
    the sources. Section 4.4 asks for literal, non-regex matching of [find],
    so it is the usual escaping: a backslash is put before every character
    that is special in a regular expression, and the pattern built from the
    result matches the code units of its argument in sequence. *)
Definition regExpSpecial : str := js ".*+?^${}()|[]\".

Definition escapeRegExp (s : str) : str :=
  flat_map (fun c => if isOneOf regExpSpecial c then [BACKSLASH; c] else [c]) s.

(** [finalContent.replace(/\n{3,}/g, '\n\n')]: of every run of line feeds
    the first two are kept. [run] counts the line feeds just before the
    position, up to two. *)
Fixpoint collapseNewlines (run : nat) (s : str) : str :=
  match s with
  | [] => []
  | c :: r =>
    if char_eqb c LF then
      if Nat.ltb run 2 then c :: collapseNewlines (S run) r
      else collapseNewlines run r
    else c :: collapseNewlines 0 r
  end.

(** [line.trim().match(/^(#+)\s/)]: the number of hashes at the head of the
    trimmed line when a white space follows them. *)
Definition headingLevel (l : str) : option nat :=
  let line := trim l in
  let afterHashes := dropWhile isHash line in
  let hashes := (length line - length afterHashes)%nat in
  match afterHashes with
  | c :: _ => if (Nat.ltb 0 hashes && isWhiteSpace c)%bool then Some hashes else None
  | [] => None
  end.

(** The loop that looks for the end of a section, from line number [i] on:
    the first line that is a header of level [headerLevel] or less, the
    number of lines when there is none. *)
Fixpoint sectionEndFrom (headerLevel : nat) (i : nat) (rest : list str) : nat :=
  match rest with
  | [] => i
  | l :: rest' =>
    match headingLevel l with
    | Some currentLevel =>
      if Nat.leb currentLevel headerLevel then i
      else sectionEndFrom headerLevel (S i) rest'
    | None => sectionEndFrom headerLevel (S i) rest'
    end
  end.

Definition sectionEnd (lines : list str) (startLineIndex headerLevel : nat) : nat :=
  sectionEndFrom headerLevel (S startLineIndex) (skipn (S startLineIndex) lines).

Definition NL : str := [LF].

Definition headerNotFound (actionNum : nat) (name hdr : str) : str :=
  js "操作 " ++ decimal actionNum ++ qq " ('" ++ name
  ++ qq "') 失败: 未找到标题 '" ++ hdr ++ qq "'。".

Definition textNotFound (actionNum : nat) (fnd : str) : str :=
  js "操作 " ++ decimal actionNum
  ++ qq " ('search_and_replace') 警告: 未找到文本 '"
  ++ substring 0 20 fnd ++ qq "...'".

Definition truthy (b : option bool) : bool :=
  match b with Some true => true | _ => false end.

(** The body of the [forEach] callback: one directive applied to the
    document, with the errors so far; [modIndex] is the callback's [index],
    the place of the directive in the list. *)
Definition applyOne (newContent : str) (errors : list str)
    (mod_ : NotepadAction) (modIndex : nat) : str * list str :=
  let lines := split LF newContent in
  let actionNum := (modIndex + 1)%nat in
  let act := action mod_ in
  if str_eqb act (js "replace_all") then (content mod_, errors)
  else if str_eqb act (js "append") then
    (newContent ++ (if endsWith NL newContent then [] else NL) ++ content mod_,
     errors)
  else if str_eqb act (js "prepend") then
    (content mod_ ++ (if endsWith NL (content mod_) then [] else NL) ++ newContent,
     errors)
  else if str_eqb act (js "replace_section") then
    let h := findHeaderLineIndex lines (header mod_) in
    if (index h =? -1)%Z then
      (newContent,
       errors ++ [headerNotFound actionNum (js "replace_section") (header mod_)])
    else
      let startLineIndex := Z.to_nat (index h) in
      let endLineIndex := sectionEnd lines startLineIndex (level h) in
      let before := firstn (startLineIndex + 1) lines in
      let after := skipn endLineIndex lines in
      let contentToInsert :=
        if startsWith NL (content mod_) then content mod_
        else NL ++ content mod_ in
      let finalContent := join NL (before ++ [contentToInsert] ++ after) in
      (collapseNewlines 0 finalContent, errors)
  else if str_eqb act (js "append_to_section") then
    let h := findHeaderLineIndex lines (header mod_) in
    if (index h =? -1)%Z then
      (newContent,
       errors ++ [headerNotFound actionNum (js "append_to_section") (header mod_)])
    else
      let startLineIndex := Z.to_nat (index h) in
      let insertionLineIndex := sectionEnd lines startLineIndex (level h) in
      let before := firstn insertionLineIndex lines in
      let after := skipn insertionLineIndex lines in
      let lastLineOfSection := last before [] in
      let contentToInsert :=
        match trim lastLineOfSection with
        | _ :: _ => NL ++ content mod_
        | [] => content mod_
        end in
      let finalContent := join NL (before ++ [contentToInsert] ++ after) in
      (collapseNewlines 0 finalContent, errors)
  else if str_eqb act (js "search_and_replace") then
    let safeSearchString := escapeRegExp (find mod_) in
    let errors' :=
      if (negb (includes (find mod_) newContent) && negb (truthy (all mod_)))%bool
      then errors ++ [textNotFound actionNum (find mod_)]
      else errors in
    if truthy (all mod_) then
      (replaceLiteralAll (find mod_) (replacement mod_) [] newContent 0, errors')
    else
      (replaceString safeSearchString (replacement mod_) newContent, errors')
  else (newContent, errors).

(** An entry of [notepad_modifications] read through the type
    [NotepadAction], as the orchestrator hands the parsed list to the engine:
    an object with a text [action], and for the six known tags the fields of
    their variant with their types. [None]: the entry is outside that type
    (what the untyped code does with it is not modelled). *)
Definition textProp (k : str) (v : json) : option str :=
  match prop k v with
  | Some (JString t) => Some t
  | _ => None
  end.

Definition withContent (a : str) (v : json) : option NotepadAction :=
  match textProp (js "content") v with
  | Some c => Some {| action := a; content := c; header := []; find := [];
                      replacement := []; all := None |}
  | None => None
  end.

Definition withHeaderContent (a : str) (v : json) : option NotepadAction :=
  match textProp (js "header") v, textProp (js "content") v with
  | Some h, Some c => Some {| action := a; content := c; header := h;
                              find := []; replacement := []; all := None |}
  | _, _ => None
  end.

Definition withFindReplacement (a : str) (v : json) : option NotepadAction :=
  match textProp (js "find") v, textProp (js "replacement") v with
  | Some f, Some r =>
    match prop (js "all") v with
    | None => Some (search_and_replace f r None)
    | Some (JBool b) => Some (search_and_replace f r (Some b))
    | Some _ => None
    end
  | _, _ => None
  end.

Definition asNotepadAction (v : json) : option NotepadAction :=
  match textProp (js "action") v with
  | None => None
  | Some a =>
    if (str_eqb a (js "replace_all") || str_eqb a (js "append")
        || str_eqb a (js "prepend"))%bool then withContent a v
    else if (str_eqb a (js "replace_section")
             || str_eqb a (js "append_to_section"))%bool
    then withHeaderContent a v
    else if str_eqb a (js "search_and_replace") then withFindReplacement a v
    else Some {| action := a; content := []; header := []; find := [];
                 replacement := []; all := None |}
  end.

Fixpoint applyFrom (modIndex : nat) (modifications : list NotepadAction)
    (newContent : str) (errors : list str) : str * list str :=
  match modifications with
  | [] => (newContent, errors)
  | mod_ :: rest =>
    let (c, e) := applyOne newContent errors mod_ modIndex in
    applyFrom (S modIndex) rest c e
  end.

Record PatchResult : Type := { newContent : str; errors : list str }.

Definition applyNotepadModifications (currentContent : str)
    (modifications : list NotepadAction) : PatchResult :=
  let (c, e) := applyFrom 0 modifications currentContent [] in
  {| newContent := c; errors := e |}.

End Notepad.

Import Notepad.

(** ** The step executor *)

Module Executor.

Inductive MessageSender : Type := User | Cognito | Muse | System.

Inductive MessagePurpose : Type :=
| UserInput | SystemNotification | CognitoToMuse | MuseToCognito | FinalResponse.

Inductive ThinkingLevel : Type := MINIMAL | LOW | MEDIUM | HIGH.

Record AiModel : Type := {
  modelId : str;
  modelName : str;
  apiName : str;
  supportsThinkingConfig : option bool;
  supportsSystemInstruction : option bool
}.

Record ThinkingConfig : Type := {
  thinkingBudget : option Z;
  thinkingLevel : option ThinkingLevel
}.

Record ImagePart : Type := { mimeType : str; data : str }.

Record ChatMessage : Type := {
  id : nat;
  text : str;
  sender : MessageSender;
  purpose : MessagePurpose;
  durationMs : option Z;
  thoughts : option str
}.

(** What a transport resolves to ([AiResponsePayload]). *)
Record AiResponsePayload : Type := {
  resultText : str;
  resultThoughts : option str;
  resultDurationMs : Z;
  resultError : option str
}.

(** A thrown value: its [name] and its [message]. *)
Record JsError : Type := { errorName : str; errorMessage : str }.

Definition newError (message : str) : JsError :=
  {| errorName := js "Error"; errorMessage := message |}.

(** [new Error("用户取消操作")]: what every cancellation check throws. *)
Definition cancelled : JsError := newError (js "用户取消操作").

Record FailedStepPayload : Type := {
  stepIdentifier : str;
  prompt : str;
  failedModelName : str;
  systemInstruction : option str;
  imageApiPart : option ImagePart;
  failedSender : MessageSender;
  failedPurpose : MessagePurpose;
  originalSystemErrorMsgId : nat;
  userInputForFlow : str;
  imageApiPartForFlow : option ImagePart;
  discussionLogBeforeFailure : list str;
  currentTurnIndexForResume : option Z;
  previousAISignaledStopForResume : option bool
}.

Record ApiKeyStatus : Type := {
  isMissing : option bool;
  isInvalid : option bool;
  statusMessage : option str
}.

(** The arguments of a transport call. *)
Inductive Request : Type :=
| OpenAiRequest (prompt modelId apiKey baseUrl : str)
    (systemInstruction : option str) (image : option ImagePart)
| GeminiRequest (prompt modelName : str) (useCustomConfig : bool)
    (customApiKey customApiEndpoint : str) (systemInstruction : option str)
    (image : option ImagePart) (thinkingConfig : option ThinkingConfig).

(** The effects of a step that the rest of the application can see, in the
    order they happen; [CancelRequested] is the one effect of the
    environment: the cancellation flag is raised while the step waits. *)
Inductive Event : Type :=
| MessageAdded (m : ChatMessage)
| MessageUpdated (msgId : nat) (text : str)
| TransportCalled (r : Request)
| Slept (ms : Z)
| FailedStepInfoSet (p : FailedStepPayload)
| CancelRequested.

(** The state the step reads and writes: the flag behind
    [state.cancelRequestRef], the message list of [useAppController], the
    state setters of [useChatState], and the trace of effects. *)
Record World : Type := {
  cancelRequest : bool;
  messages : list ChatMessage;
  idsIssued : nat;
  failedStepInfo : option FailedStepPayload;
  isInternalDiscussionActive : bool;
  globalApiKeyStatus : ApiKeyStatus;
  trace : list Event
}.

Definition setCancelRequest (b : bool) (w : World) : World :=
  {| cancelRequest := b; messages := messages w; idsIssued := idsIssued w;
     failedStepInfo := failedStepInfo w;
     isInternalDiscussionActive := isInternalDiscussionActive w;
     globalApiKeyStatus := globalApiKeyStatus w; trace := trace w |}.

Definition setMessages (ms : list ChatMessage) (w : World) : World :=
  {| cancelRequest := cancelRequest w; messages := ms; idsIssued := idsIssued w;
     failedStepInfo := failedStepInfo w;
     isInternalDiscussionActive := isInternalDiscussionActive w;
     globalApiKeyStatus := globalApiKeyStatus w; trace := trace w |}.

Definition setIdsIssued (n : nat) (w : World) : World :=
  {| cancelRequest := cancelRequest w; messages := messages w; idsIssued := n;
     failedStepInfo := failedStepInfo w;
     isInternalDiscussionActive := isInternalDiscussionActive w;
     globalApiKeyStatus := globalApiKeyStatus w; trace := trace w |}.

Definition log (e : Event) (w : World) : World :=
  {| cancelRequest := cancelRequest w; messages := messages w;
     idsIssued := idsIssued w; failedStepInfo := failedStepInfo w;
     isInternalDiscussionActive := isInternalDiscussionActive w;
     globalApiKeyStatus := globalApiKeyStatus w; trace := trace w ++ [e] |}.

(** *** A monad for state and exceptions *)

Inductive Result (A : Type) : Type :=
| Ok (a : A)
| Throw (e : JsError).

Arguments Ok {A} a.
Arguments Throw {A} e.

Definition M (A : Type) : Type := World -> Result A * World.

Definition ret {A} (a : A) : M A := fun w => (Ok a, w).

Definition bind {A B} (c : M A) (k : A -> M B) : M B :=
  fun w =>
    match c w with
    | (Ok a, w') => k a w'
    | (Throw e, w') => (Throw e, w')
    end.

Definition throw {A} (e : JsError) : M A := fun w => (Throw e, w).

Definition tryCatch {A} (body : M A) (handler : JsError -> M A) : M A :=
  fun w =>
    match body w with
    | (Ok a, w') => (Ok a, w')
    | (Throw e, w') => handler e w'
    end.

Definition gets {A} (f : World -> A) : M A := fun w => (Ok (f w), w).
Definition modify (f : World -> World) : M unit := fun w => (Ok tt, f w).

Declare Scope exec_scope.
Delimit Scope exec_scope with exec.
Notation "x <- c ;; k" := (bind c (fun x => k))
  (at level 61, c at next level, right associativity) : exec_scope.
Notation "c ;; k" := (bind c (fun _ => k))
  (at level 61, right associativity) : exec_scope.
Local Open Scope exec_scope.

Definition when (b : bool) (c : M unit) : M unit := if b then c else ret tt.

(** *** The message store of [useAppController] *)

(** Modelled from the spec: [generateUniqueId] of [../utils/appUtils] is not
    among the sources; the message store's [create] returns the id of a new
    message, so the ids are the numbers issued so far. *)
Definition generateUniqueId : M nat :=
  n <- gets idsIssued ;;
  modify (setIdsIssued (S n)) ;;
  ret n.

Definition addMessage (text : str) (sender : MessageSender)
    (purpose : MessagePurpose) : M nat :=
  messageId <- generateUniqueId ;;
  let m := {| id := messageId; text := text; sender := sender;
              purpose := purpose; durationMs := None; thoughts := None |} in
  modify (fun w => log (MessageAdded m) (setMessages (messages w ++ [m]) w)) ;;
  ret messageId.

(** [updateMessage(id, updates)]: the fields of [updates] replace those of
    the message with that id. An absent key of [updates] is [None]. *)
Record Updates : Type := {
  newText : option str;
  newThoughts : option (option str);
  newDurationMs : option (option Z)
}.

Definition applyUpdates (u : Updates) (m : ChatMessage) : ChatMessage :=
  {| id := id m;
     text := match newText u with Some t => t | None => text m end;
     sender := sender m;
     purpose := purpose m;
     durationMs := match newDurationMs u with Some d => d | None => durationMs m end;
     thoughts := match newThoughts u with Some t => t | None => thoughts m end |}.

Definition updateMessage (msgId : nat) (u : Updates) : M unit :=
  modify (fun w =>
    log (MessageUpdated msgId (match newText u with Some t => t | None => [] end))
        (setMessages
           (map (fun m => if Nat.eqb (id m) msgId then applyUpdates u m else m)
                (messages w)) w)).

Definition setFailedStepInfo (p : FailedStepPayload) : M unit :=
  modify (fun w =>
    log (FailedStepInfoSet p)
    {| cancelRequest := cancelRequest w; messages := messages w;
       idsIssued := idsIssued w; failedStepInfo := Some p;
       isInternalDiscussionActive := isInternalDiscussionActive w;
       globalApiKeyStatus := globalApiKeyStatus w; trace := trace w |}).

Definition setIsInternalDiscussionActive (b : bool) : M unit :=
  modify (fun w =>
    {| cancelRequest := cancelRequest w; messages := messages w;
       idsIssued := idsIssued w; failedStepInfo := failedStepInfo w;
       isInternalDiscussionActive := b;
       globalApiKeyStatus := globalApiKeyStatus w; trace := trace w |}).

Definition setGlobalApiKeyStatus (s : ApiKeyStatus) : M unit :=
  modify (fun w =>
    {| cancelRequest := cancelRequest w; messages := messages w;
       idsIssued := idsIssued w; failedStepInfo := failedStepInfo w;
       isInternalDiscussionActive := isInternalDiscussionActive w;
       globalApiKeyStatus := s; trace := trace w |}).

(** *** The environment of a step *)

Record Chunk : Type := { chunkText : option str; chunkThoughts : option str }.

(** How a transport call ends: it resolves to a payload or it throws. *)
Inductive TransportEnd : Type :=
| Resolves (p : AiResponsePayload)
| Rejects (e : JsError).

(** What happens around the call of one attempt: the deltas handed to the
    stream handler, how the call ends, whether the user cancels while the
    call is pending ([Some k]: after [k] of the deltas have reached the
    handler, or after all of them when they are fewer; the deltas that were
    under way still reach it), and whether the user cancels during the delay
    that follows a failure. *)
Record Attempt : Type := {
  chunks : list Chunk;
  transportEnd : TransportEnd;
  cancelDuringCall : option nat;
  cancelDuringDelay : bool
}.

(** The environment: what happens at the attempt of each number. *)
Definition Environment : Type := nat -> Attempt.

(** The flag is raised by the user ([stopGenerating]) while the step is
    suspended. *)
Definition userCancels : M unit :=
  modify (fun w => log CancelRequested (setCancelRequest true w)).

Definition userMayCancel (cancels : bool) : M unit := when cancels userCancels.

(** *** [useStepExecutor] *)

(** The properties the hook closes over. *)
Record Props : Type := {
  cognitoSystemPrompt : str;
  museSystemPrompt : str;
  useCustomApiConfig : bool;
  customApiKey : str;
  customApiEndpoint : str;
  useOpenAiApiConfig : bool;
  openAiApiKey : str;
  openAiApiBaseUrl : str;
  cognitoThinkingBudget : Z;
  cognitoThinkingLevel : ThinkingLevel;
  museThinkingBudget : Z;
  museThinkingLevel : ThinkingLevel
}.

(** The arguments of [executeStep]. *)
Record StepArgs : Type := {
  stepIdentifierArg : str;
  promptArg : str;
  modelDetailsForStep : AiModel;
  senderForStep : MessageSender;
  purposeForStep : MessagePurpose;
  imageApiPartForStep : option ImagePart;
  userInputForFlowContext : option str;
  imageApiPartForFlowContext : option ImagePart;
  discussionLogBeforeFailureContext : option (list str);
  currentTurnIndexForResumeContext : option Z;
  previousAISignaledStopForResumeContext : option bool
}.

(** How a run of [executeStep] ends. [OutOfFuel] is an artefact of the
    bound on the iterations of the loop; [executeStep_ends] shows that no run
    ends so. *)
Inductive Outcome : Type :=
| Returns (parsedResponse : option ParsedAIResponse)
| Throws (e : JsError)
| OutOfFuel.

Definition isCognito (s : MessageSender) : bool :=
  match s with Cognito => true | _ => false end.

Definition isTrue (b : option bool) : bool :=
  match b with Some true => true | _ => false end.

Definition orDefault (s d : str) : str :=
  match s with [] => d | _ :: _ => s end.

Section WithConstants.

(** The constants of [../constants], which is not among the sources. *)
Variable MAX_AUTO_RETRIES : nat.
Variable RETRY_DELAY_BASE_MS : Z.
Variable GEMINI_3_PRO_MODEL_ID : str.

Variable props : Props.

Definition getThinkingConfigForGeminiModel (modelDetails : AiModel)
    (budget : Z) (level : ThinkingLevel) : option ThinkingConfig :=
  if (negb (useOpenAiApiConfig props)
      && isTrue (supportsThinkingConfig modelDetails))%bool then
    if (budget =? 0)%Z then None
    else if (budget =? -1)%Z then
      if str_eqb (apiName modelDetails) GEMINI_3_PRO_MODEL_ID
      then Some {| thinkingBudget := None; thinkingLevel := Some level |}
      else Some {| thinkingBudget := Some 1024%Z; thinkingLevel := None |}
    else Some {| thinkingBudget := Some budget; thinkingLevel := None |}
  else None.

Variable env : Environment.
Variable args : StepArgs.

Definition systemInstructionToUse : str :=
  if isCognito (senderForStep args)
  then cognitoSystemPrompt props else museSystemPrompt props.

Definition thinkingConfig : option ThinkingConfig :=
  getThinkingConfigForGeminiModel (modelDetailsForStep args)
    (if isCognito (senderForStep args)
     then cognitoThinkingBudget props else museThinkingBudget props)
    (if isCognito (senderForStep args)
     then cognitoThinkingLevel props else museThinkingLevel props).

Definition systemInstructionArg : option str :=
  if isTrue (supportsSystemInstruction (modelDetailsForStep args))
  then Some systemInstructionToUse else None.

Definition request : Request :=
  if useOpenAiApiConfig props then
    OpenAiRequest (promptArg args) (apiName (modelDetailsForStep args))
      (openAiApiKey props) (openAiApiBaseUrl props)
      systemInstructionArg (imageApiPartForStep args)
  else
    GeminiRequest (promptArg args) (apiName (modelDetailsForStep args))
      (useCustomApiConfig props) (customApiKey props) (customApiEndpoint props)
      systemInstructionArg (imageApiPartForStep args) thinkingConfig.

(** [streamHandler] over the deltas of a call, with the text and the
    thoughts streamed so far; [cancelAfter] tells after how many more deltas
    the user cancels, if at all. *)
Fixpoint streamAll (msgId : nat) (streamedText streamedThoughts : str)
    (cancelAfter : option nat) (cs : list Chunk) : M unit :=
  match cs with
  | [] =>
    match cancelAfter with
    | Some _ => userCancels
    | None => ret tt
    end
  | c :: rest =>
    let streamedText :=
      streamedText ++ match chunkText c with Some t => t | None => [] end in
    let streamedThoughts :=
      streamedThoughts
      ++ match chunkThoughts c with Some t => t | None => [] end in
    match cancelAfter with
    | Some O => userCancels
    | _ => ret tt
    end ;;
    updateMessage msgId {| newText := Some streamedText;
                           newThoughts := Some (Some streamedThoughts);
                           newDurationMs := None |} ;;
    streamAll msgId streamedText streamedThoughts
      match cancelAfter with
      | Some (S k) => Some k
      | _ => None
      end rest
  end.

(** [await generate...Response(...)]: the call is made, its deltas reach the
    handler, the user may cancel meanwhile, and the call resolves or
    rejects. *)
Definition callTransport (autoRetryCount msgId : nat) : M AiResponsePayload :=
  let a := env autoRetryCount in
  modify (log (TransportCalled request)) ;;
  streamAll msgId [] [] (cancelDuringCall a) (chunks a) ;;
  match transportEnd a with
  | Resolves p => ret p
  | Rejects e => throw e
  end.

(** [await new Promise(resolve => setTimeout(resolve, ms))]. *)
Definition sleep (autoRetryCount : nat) (ms : Z) : M unit :=
  modify (log (Slept ms)) ;;
  userMayCancel (cancelDuringDelay (env autoRetryCount)).

Definition failedStepPayload (errorMsgId : nat) : FailedStepPayload :=
  {| stepIdentifier := stepIdentifierArg args;
     prompt := promptArg args;
     failedModelName := apiName (modelDetailsForStep args);
     systemInstruction := Some systemInstructionToUse;
     imageApiPart := imageApiPartForStep args;
     failedSender := senderForStep args;
     failedPurpose := purposeForStep args;
     originalSystemErrorMsgId := errorMsgId;
     userInputForFlow :=
       match userInputForFlowContext args with
       | Some ((_ :: _) as u) => u
       | _ => []
       end;
     imageApiPartForFlow := imageApiPartForFlowContext args;
     discussionLogBeforeFailure :=
       match discussionLogBeforeFailureContext args with
       | Some l => l
       | None => []
       end;
     currentTurnIndexForResume := currentTurnIndexForResumeContext args;
     previousAISignaledStopForResume :=
       previousAISignaledStopForResumeContext args |}.

(** The block under [try] of one attempt. *)
Definition tryBlock (autoRetryCount msgId : nat) : M ParsedAIResponse :=
  result <- callTransport autoRetryCount msgId ;;
  cancel <- gets cancelRequest ;;
  (if cancel then throw cancelled else ret tt) ;;
  match resultError result with
  | Some ((_ :: _) as err) =>
    if str_eqb err (js "AbortError") then throw cancelled
    else throw (newError (orDefault (resultText result) (js "AI 响应错误")))
  | _ =>
    setGlobalApiKeyStatus {| isMissing := Some false; isInvalid := Some false;
                             statusMessage := None |} ;;
    let parsedResponse := parseAIResponse (resultText result) in
    updateMessage msgId {| newText := Some (spokenText parsedResponse);
                           newDurationMs := Some (Some (resultDurationMs result));
                           newThoughts := Some (resultThoughts result) |} ;;
    ret parsedResponse
  end.

(** The block under [catch]: [None] is returned when a retry is due. *)
Definition catchBlock (autoRetryCount : nat) (error : JsError)
  : M (option ParsedAIResponse) :=
  cancel <- gets cancelRequest ;;
  if (cancel || str_eqb (errorName error) (js "AbortError"))%bool
  then throw cancelled
  else if Nat.ltb autoRetryCount MAX_AUTO_RETRIES then
    addMessage (js "[重试] " ++ errorMessage error) System SystemNotification ;;
    sleep autoRetryCount (RETRY_DELAY_BASE_MS * (Z.of_nat autoRetryCount + 1)) ;;
    ret None
  else
    errorMsgId <- addMessage (js "失败: " ++ errorMessage error)
                    System SystemNotification ;;
    setFailedStepInfo (failedStepPayload errorMsgId) ;;
    setIsInternalDiscussionActive false ;;
    throw error.

(** The body of the [while] loop: [Some] response when [stepSuccess] has
    been set, [None] when the loop is to go round again. *)
Definition iteration (autoRetryCount : nat) : M (option ParsedAIResponse) :=
  cancel <- gets cancelRequest ;;
  (if cancel then throw cancelled else ret tt) ;;
  msgId <- addMessage [] (senderForStep args) (purposeForStep args) ;;
  tryCatch
    (parsedResponse <- tryBlock autoRetryCount msgId ;;
     ret (Some parsedResponse))
    (catchBlock autoRetryCount).

(** [while (autoRetryCount <= MAX_AUTO_RETRIES && !stepSuccess)] from a
    loop head where [stepSuccess] is false, and the [return] after it. *)
Fixpoint whileLoop (fuel autoRetryCount : nat) (w : World) : Outcome * World :=
  if Nat.leb autoRetryCount MAX_AUTO_RETRIES then
    match fuel with
    | O => (OutOfFuel, w)
    | S fuel' =>
      match iteration autoRetryCount w with
      | (Ok (Some parsedResponse), w') => (Returns (Some parsedResponse), w')
      | (Ok None, w') => whileLoop fuel' (S autoRetryCount) w'
      | (Throw e, w') => (Throws e, w')
      end
    end
  else (Returns None, w).

Definition executeStep (w : World) : Outcome * World :=
  whileLoop (S MAX_AUTO_RETRIES) 0 w.

End WithConstants.

End Executor.

Import Executor.

(** * Properties *)

(** ** Text equality *)

Lemma str_eqb_refl (a : str) : str_eqb a a = true.
Proof.
  induction a as [|c a IH]; simpl; [reflexivity|].
  unfold char_eqb. rewrite N.eqb_refl. exact IH.
Qed.

Lemma str_eqb_eq (a b : str) : str_eqb a b = true <-> a = b.
Proof.
  split.
  - revert b. induction a as [|c a IH]; intros [|d b] H; simpl in H;
      try discriminate; [reflexivity|].
    apply andb_true_iff in H. destruct H as [Hc Hr].
    apply N.eqb_eq in Hc. subst d. f_equal. apply IH. exact Hr.
  - intros ->. apply str_eqb_refl.
Qed.

Lemma str_eqb_neq (a b : str) : str_eqb a b = false <-> a <> b.
Proof.
  split.
  - intros H E. apply str_eqb_eq in E. congruence.
  - intros H. destruct (str_eqb a b) eqn:E; [|reflexivity].
    apply str_eqb_eq in E. contradiction.
Qed.

(** ** The bound on the descent of the JSON parser *)

Lemma dropWhile_length (p : char -> bool) (s : str) :
  length (dropWhile p s) <= length s.
Proof.
  induction s as [|c s IH]; simpl; [lia|].
  destruct (p c); simpl; lia.
Qed.

Lemma skipWs_cons (s r : str) (c : char) :
  skipWs s = c :: r -> length r < length s.
Proof.
  intros H. pose proof (dropWhile_length isJsonWs s) as Hl.
  unfold skipWs in H. rewrite H in Hl. simpl in Hl. lia.
Qed.

Lemma parseStringBody_shorter (n : nat) :
  forall (s t r : str),
    length s <= n -> parseStringBody s = Some (t, r) -> length r < length s.
Proof.
  induction n as [|n IH]; intros s t r Hn H.
  - destruct s; [discriminate|simpl in Hn; lia].
  - destruct s as [|c s]; [discriminate|].
    simpl in Hn. cbn [parseStringBody] in H.
    repeat match type of H with
           | (if ?b then _ else _) = _ => destruct b
           | match ?x with _ => _ end = _ => destruct x as [] eqn:?
           | Some _ = Some _ => injection H as <- <-
           | None = Some _ => discriminate
           end;
      simpl;
      repeat match goal with
             | E : parseStringBody ?x = Some (?a, ?b) |- _ =>
               apply IH in E; [|simpl in *; lia]
             end;
      simpl in *; try lia.
Qed.

Lemma spanDigits_length (s : str) :
  length (snd (spanDigits s)) <= length s.
Proof.
  induction s as [|c s IH]; simpl; [lia|].
  destruct (isDigit c); simpl; [|lia].
  destruct (spanDigits s) as [d rest]. simpl in *. lia.
Qed.

Lemma spanDigits_rest (s d rest : str) :
  spanDigits s = (d, rest) -> length rest <= length s.
Proof.
  intros H. pose proof (spanDigits_length s) as Hl. rewrite H in Hl. exact Hl.
Qed.

(** Case analysis on every test of a hypothesis. *)
Ltac break_hyps :=
  repeat match goal with
         | H : Some _ = Some _ |- _ => inversion H; subst; clear H
         | H : (_, _) = (_, _) |- _ => inversion H; subst; clear H
         | H : None = Some _ |- _ => discriminate H
         | H : Some _ = None |- _ => discriminate H
         | H : context [if ?b then _ else _] |- _ => destruct b eqn:?
         | H : context [match ?x with _ => _ end] |- _ =>
           first [is_var x; destruct x | destruct x eqn:?]
         end.

Lemma spanDigits_digit (c : char) (s d rest : str) :
  isDigit c = true -> spanDigits (c :: s) = (d, rest) ->
  length rest <= length s.
Proof.
  intros Hc H. simpl in H. rewrite Hc in H.
  destruct (spanDigits s) as [d' rest'] eqn:E. injection H as <- <-.
  eapply spanDigits_rest. exact E.
Qed.

Lemma parseNumber_shorter (s lex r : str) :
  parseNumber s = Some (lex, r) -> length r < length s.
Proof.
  unfold parseNumber. intros H. break_hyps;
    repeat match goal with
           | D : isDigit ?c = true, E : spanDigits (?c :: _) = (_, _) |- _ =>
             eapply spanDigits_digit in E; [|exact D]
           | E : spanDigits _ = (_, _) |- _ => apply spanDigits_rest in E
           end;
    simpl in *; lia.
Qed.

Lemma skipn_shorter (n : nat) (c : char) (r : str) :
  0 < n -> length (skipn n (c :: r)) < length (c :: r).
Proof. intros H. rewrite length_skipn. cbn [length]. lia. Qed.

(** What the parser leaves is shorter than what it was given. *)
Lemma parse_shorter (fuel : nat) :
  (forall s v r, parseValue fuel s = Some (v, r) -> length r < length s)
  /\ (forall s vs r, parseElements fuel s = Some (vs, r) -> length r < length s)
  /\ (forall s ms r, parseMembers fuel s = Some (ms, r) -> length r < length s).
Proof.
  induction fuel as [|fuel [IHv [IHe IHm]]]; [repeat split; discriminate|].
  repeat split.
  - intros s v r H. cbn [parseValue] in H.
    destruct (skipWs s) as [|c r0] eqn:Ews; [discriminate|].
    apply skipWs_cons in Ews.
    pose proof (@skipn_shorter 4 c r0 ltac:(lia)) as H4.
    pose proof (@skipn_shorter 5 c r0 ltac:(lia)) as H5.
    break_hyps;
      repeat match goal with
             | E : skipWs _ = _ :: _ |- _ => apply skipWs_cons in E
             | E : parseMembers fuel _ = Some _ |- _ => apply IHm in E
             | E : parseElements fuel _ = Some _ |- _ => apply IHe in E
             | E : parseStringBody _ = Some _ |- _ =>
               eapply parseStringBody_shorter in E; [|apply le_n]
             | E : parseNumber _ = Some _ |- _ => apply parseNumber_shorter in E
             end;
      pose proof (dropWhile_length isJsonWs r0);
      unfold skipWs in *; simpl in *; lia.
  - intros s vs r H. cbn [parseElements] in H.
    break_hyps;
      repeat match goal with
             | E : skipWs _ = _ :: _ |- _ => apply skipWs_cons in E
             | E : parseValue fuel _ = Some _ |- _ => apply IHv in E
             | E : parseElements fuel _ = Some _ |- _ => apply IHe in E
             end;
      simpl in *; lia.
  - intros s ms r H. cbn [parseMembers] in H.
    break_hyps;
      repeat match goal with
             | E : skipWs _ = _ :: _ |- _ => apply skipWs_cons in E
             | E : parseValue fuel _ = Some _ |- _ => apply IHv in E
             | E : parseMembers fuel _ = Some _ |- _ => apply IHm in E
             | E : parseStringBody _ = Some _ |- _ =>
               eapply parseStringBody_shorter in E; [|apply le_n]
             end;
      simpl in *; lia.
Qed.

(** With more fuel than twice the length of the input the descent does not
    run out: more fuel gives the same result. *)
Lemma parse_fuel (fuel : nat) :
  (forall s fuel', 2 * length s < fuel -> fuel <= fuel' ->
     parseValue fuel' s = parseValue fuel s)
  /\ (forall s fuel', 2 * length s + 1 < fuel -> fuel <= fuel' ->
        parseElements fuel' s = parseElements fuel s)
  /\ (forall s fuel', 2 * length s + 1 < fuel -> fuel <= fuel' ->
        parseMembers fuel' s = parseMembers fuel s).
Proof.
  induction fuel as [|fuel [IHv [IHe IHm]]]; [repeat split; intros; lia|].
  pose proof (parse_shorter fuel) as [Sv [Se Sm]].
  repeat split.
  - intros s [|fuel'] Hlen Hle; [lia|]. cbn [parseValue].
    destruct (skipWs s) as [|c r] eqn:Ews; [reflexivity|].
    apply skipWs_cons in Ews.
    pose proof (dropWhile_length isJsonWs r) as Hr. fold (skipWs r) in Hr.
    rewrite (IHm (skipWs r) fuel') by lia.
    rewrite (IHe (skipWs r) fuel') by lia.
    reflexivity.
  - intros s [|fuel'] Hlen Hle; [lia|]. cbn [parseElements].
    rewrite (IHv s fuel') by lia.
    destruct (parseValue fuel s) as [[v r]|] eqn:Ev; [|reflexivity].
    apply Sv in Ev.
    destruct (skipWs r) as [|c r1] eqn:Ews; [reflexivity|].
    apply skipWs_cons in Ews.
    rewrite (IHe r1 fuel') by lia. reflexivity.
  - intros s [|fuel'] Hlen Hle; [lia|]. cbn [parseMembers].
    destruct (skipWs s) as [|q r0] eqn:Ews; [reflexivity|].
    apply skipWs_cons in Ews.
    destruct (char_eqb q QUOTE); [|reflexivity].
    destruct (parseStringBody r0) as [[k r1]|] eqn:Ek; [|reflexivity].
    eapply parseStringBody_shorter in Ek; [|apply le_n].
    destruct (skipWs r1) as [|c r2] eqn:Ews1; [reflexivity|].
    apply skipWs_cons in Ews1.
    destruct (char_eqb c (ch ":")); [|reflexivity].
    rewrite (IHv r2 fuel') by lia.
    destruct (parseValue fuel r2) as [[v r3]|] eqn:Ev; [|reflexivity].
    apply Sv in Ev.
    destruct (skipWs r3) as [|d r4] eqn:Ews3; [reflexivity|].
    apply skipWs_cons in Ews3.
    rewrite (IHm r4 fuel') by lia. reflexivity.
Qed.

(** [JSON_parse] does not depend on its bound: any larger one gives the
    same value. *)
Lemma JSON_parse_fuel (text : str) (fuel : nat) :
  2 * length text + 2 <= fuel ->
  JSON_parse text
  = match parseValue fuel text with
    | Some (v, rest) =>
      match skipWs rest with
      | [] => Some v
      | _ :: _ => None
      end
    | None => None
    end.
Proof.
  intros H. unfold JSON_parse.
  rewrite (proj1 (parse_fuel (2 * length text + 2)) text fuel) by lia.
  reflexivity.
Qed.

(** ** The directive parser on the reply of the specification *)

(** The reply of section 8: [Hello], a line feed, and a fenced block tagged
    [json] with one [append] directive and the end signal. *)
Definition helloReply : str :=
  js "Hello" ++ [LF] ++ js "```json" ++ [LF]
  ++ qq "{'notepad_modifications':[{'action':'append','content':'X'}],'discussion_complete':true}"
  ++ [LF] ++ js "```".

(** C6: for the reply [Hello], newline, and the json-tagged fenced block with
    one append directive of content X and discussion_complete true, the
    parser returns the spoken text Hello, a directive list with exactly one
    entry, which is the Append directive with content X, no parse error, and
    the end signal true. *)
Theorem parse_hello_append :
  spokenText (parseAIResponse helloReply) = js "Hello"
  /\ notepadUpdate (parseAIResponse helloReply)
     = Some {| modifications :=
                 Some [JObject [(js "action", JString (js "append"));
                                (js "content", JString (js "X"))]];
               error := None |}
  /\ asNotepadAction (JObject [(js "action", JString (js "append"));
                               (js "content", JString (js "X"))])
     = Some (append (js "X"))
  /\ discussionShouldEnd (parseAIResponse helloReply) = true.
Proof. vm_compute. repeat split; reflexivity. Qed.

(** ** The header resolver on the header of the specification *)

(** C7: a document that holds the line [## "summary"] resolves the target
    [Summary:] to that line, with the level 2 of its two hashes, and not to
    not-found: as the first line of any document, and as the third line of a
    document whose earlier lines do not match. *)
Theorem summary_header_resolves :
  (forall rest : list str,
     findHeaderLineIndex (qq "## 'summary'" :: rest) (js "Summary:")
     = {| index := 0; level := 2 |})
  /\ findHeaderLineIndex
       [js "# Notes"; js "intro"; qq "## 'summary'"; js "body"] (js "Summary:")
     = {| index := 2; level := 2 |}.
Proof.
  split.
  - intros rest. reflexivity.
  - vm_compute. reflexivity.
Qed.

(** ** The derivation of the reasoning budget *)

(** C9: outside the OpenAI path and for a model that supports the thinking
    configuration, a budget of 0 gives no reasoning parameter; the budget -1
    (auto) gives the reasoning level when the model is the one with leveled
    reasoning and the fixed budget 1024 otherwise; every other budget is
    passed on as it is. *)
Theorem thinking_config_derivation
    (GEMINI_3_PRO_MODEL_ID : str) (props : Props) (modelDetails : AiModel)
    (budget : Z) (level : ThinkingLevel) :
  useOpenAiApiConfig props = false ->
  supportsThinkingConfig modelDetails = Some true ->
  let config :=
    getThinkingConfigForGeminiModel GEMINI_3_PRO_MODEL_ID props
      modelDetails budget level in
  (budget = 0%Z -> config = None)
  /\ (budget = (-1)%Z -> apiName modelDetails = GEMINI_3_PRO_MODEL_ID ->
      config = Some {| thinkingBudget := None; thinkingLevel := Some level |})
  /\ (budget = (-1)%Z -> apiName modelDetails <> GEMINI_3_PRO_MODEL_ID ->
      config = Some {| thinkingBudget := Some 1024%Z; thinkingLevel := None |})
  /\ (budget <> 0%Z -> budget <> (-1)%Z ->
      config = Some {| thinkingBudget := Some budget; thinkingLevel := None |}).
Proof.
  intros Hopen Hsup config. subst config.
  unfold getThinkingConfigForGeminiModel. rewrite Hopen, Hsup. simpl.
  repeat split.
  - intros ->. reflexivity.
  - intros -> Hapi. simpl. apply str_eqb_eq in Hapi. rewrite Hapi. reflexivity.
  - intros -> Hapi. simpl. apply str_eqb_neq in Hapi. rewrite Hapi. reflexivity.
  - intros H0 H1. apply Z.eqb_neq in H0, H1. rewrite H0, H1. reflexivity.
Qed.

Definition geminiProps : Props :=
  {| cognitoSystemPrompt := js "You are Cognito.";
     museSystemPrompt := js "You are Muse.";
     useCustomApiConfig := false; customApiKey := []; customApiEndpoint := [];
     useOpenAiApiConfig := false; openAiApiKey := []; openAiApiBaseUrl := [];
     cognitoThinkingBudget := (-1)%Z; cognitoThinkingLevel := HIGH;
     museThinkingBudget := 0%Z; museThinkingLevel := LOW |}.

Definition proModel : AiModel :=
  {| modelId := js "pro"; modelName := js "Pro"; apiName := js "gemini-3-pro";
     supportsThinkingConfig := Some true; supportsSystemInstruction := Some true |}.

Definition flashModel : AiModel :=
  {| modelId := js "flash"; modelName := js "Flash"; apiName := js "gemini-flash";
     supportsThinkingConfig := Some true; supportsSystemInstruction := Some true |}.

Lemma thinking_config_derivation_witness :
  getThinkingConfigForGeminiModel (js "gemini-3-pro") geminiProps proModel 0 HIGH
  = None
  /\ getThinkingConfigForGeminiModel (js "gemini-3-pro") geminiProps proModel (-1) HIGH
     = Some {| thinkingBudget := None; thinkingLevel := Some HIGH |}
  /\ getThinkingConfigForGeminiModel (js "gemini-3-pro") geminiProps flashModel (-1) LOW
     = Some {| thinkingBudget := Some 1024%Z; thinkingLevel := None |}
  /\ getThinkingConfigForGeminiModel (js "gemini-3-pro") geminiProps flashModel 4096 LOW
     = Some {| thinkingBudget := Some 4096%Z; thinkingLevel := None |}.
Proof.
  split; [|split; [|split]].
  - apply (thinking_config_derivation (js "gemini-3-pro") geminiProps proModel
             0 HIGH eq_refl eq_refl). reflexivity.
  - apply (thinking_config_derivation (js "gemini-3-pro") geminiProps proModel
             (-1) HIGH eq_refl eq_refl); reflexivity.
  - apply (thinking_config_derivation (js "gemini-3-pro") geminiProps flashModel
             (-1) LOW eq_refl eq_refl); [reflexivity|].
    vm_compute. discriminate.
  - apply (thinking_config_derivation (js "gemini-3-pro") geminiProps flashModel
             4096 LOW eq_refl eq_refl); discriminate.
Defined.

(** ** Search and replace *)

(** C1: at the document [a.b], the directive that replaces the first
    occurrence of [a.b] by [X] leaves the document as it is and records no
    warning, because the text looked for is the escaped [a\.b]; the
    directive that replaces all occurrences gives [X]. *)
Theorem search_replace_first_misses_escaped_find :
  includes (js "a.b") (js "a.b") = true
  /\ applyNotepadModifications (js "a.b")
       [search_and_replace (js "a.b") (js "X") (Some false)]
     = {| newContent := js "a.b"; errors := [] |}
  /\ applyNotepadModifications (js "a.b")
       [search_and_replace (js "a.b") (js "X") (Some true)]
     = {| newContent := js "X"; errors := [] |}.
Proof. vm_compute. repeat split; reflexivity. Qed.

(** ** Directives with an unknown action *)

(** The six tags of the type [NotepadAction]. *)
Definition recognizedActions : list str :=
  [js "replace_all"; js "append"; js "prepend"; js "replace_section";
   js "append_to_section"; js "search_and_replace"].

Definition recognized (a : str) : bool := existsb (str_eqb a) recognizedActions.

Definition parsedModifications (r : ParsedAIResponse) : list json :=
  match notepadUpdate r with
  | Some u => match modifications u with Some l => l | None => [] end
  | None => []
  end.

Lemma applyOne_unrecognized (doc : str) (errs : list str) (m : NotepadAction)
    (i : nat) :
  recognized (action m) = false -> applyOne doc errs m i = (doc, errs).
Proof.
  unfold recognized, recognizedActions. simpl. intros H.
  repeat (apply orb_false_iff in H; destruct H as [? H]).
  unfold applyOne.
  repeat match goal with
         | E : str_eqb _ _ = false |- _ => rewrite E; clear E
         end.
  reflexivity.
Qed.

Lemma applyFrom_unrecognized (mods : list NotepadAction) :
  forall (i : nat) (doc : str) (errs : list str),
    (forall m, In m mods -> recognized (action m) = false) ->
    applyFrom i mods doc errs = (doc, errs).
Proof.
  induction mods as [|m mods IH]; intros i doc errs H; simpl; [reflexivity|].
  rewrite applyOne_unrecognized by (apply H; left; reflexivity).
  apply IH. intros m' Hm'. apply H. right. exact Hm'.
Qed.

(** The directive list of a reply is the array of the parsed object, entry
    by entry, whichever strategy found the candidate. *)
Lemma parse_passes_entries_through (raw cand : str) (members : list (str * json))
    (items : list json) :
  fst (selectCandidate (matchAllBlocks 0 raw) raw) = Some cand ->
  cand <> [] ->
  robustJsonParse cand = JObject members ->
  lookup (js "notepad_modifications") members = Some (JArray items) ->
  parsedModifications (parseAIResponse raw) = items.
Proof.
  intros Hsel Hne Hparse Hlook.
  unfold parsedModifications, parseAIResponse.
  rewrite Hsel. destruct cand as [|c cand]; [contradiction|].
  rewrite Hparse. cbn [isObject prop]. rewrite Hlook.
  destruct items as [|v items]; cbn; [|reflexivity].
  destruct (match prop (js "discussion_complete") (JObject members) with
            | Some (JBool b) => b | _ => false end); reflexivity.
Qed.

(** C10: a directive whose action is none of the six tags leaves the document
    and the error list as they are, alone or in a list of such directives;
    and the parser hands on the entries of [notepad_modifications] as they
    are, whatever their action. *)
Theorem unknown_action_skipped :
  (forall (doc : str) (errs : list str) (m : NotepadAction) (i : nat),
     recognized (action m) = false -> applyOne doc errs m i = (doc, errs))
  /\ (forall (doc : str) (mods : list NotepadAction),
        (forall m, In m mods -> recognized (action m) = false) ->
        applyNotepadModifications doc mods = {| newContent := doc; errors := [] |})
  /\ (forall (raw cand : str) (members : list (str * json)) (items : list json),
        fst (selectCandidate (matchAllBlocks 0 raw) raw) = Some cand ->
        cand <> [] ->
        robustJsonParse cand = JObject members ->
        lookup (js "notepad_modifications") members = Some (JArray items) ->
        parsedModifications (parseAIResponse raw) = items).
Proof.
  split; [|split].
  - exact applyOne_unrecognized.
  - intros doc mods H. unfold applyNotepadModifications.
    rewrite applyFrom_unrecognized by exact H. reflexivity.
  - exact parse_passes_entries_through.
Qed.

(** A reply whose only directive has the action [shout]. *)
Definition shoutReply : str :=
  js "Done." ++ [LF] ++ js "```json" ++ [LF]
  ++ qq "{'notepad_modifications':[{'action':'shout','content':'X'}]}"
  ++ [LF] ++ js "```".

Definition shout : NotepadAction :=
  {| action := js "shout"; content := []; header := []; find := [];
     replacement := []; all := None |}.

Lemma unknown_action_skipped_witness :
  applyOne (js "notes") [js "earlier error"] shout 0
  = (js "notes", [js "earlier error"])
  /\ applyNotepadModifications (js "notes") [shout; shout]
     = {| newContent := js "notes"; errors := [] |}
  /\ parsedModifications (parseAIResponse shoutReply)
     = [JObject [(js "action", JString (js "shout"));
                 (js "content", JString (js "X"))]]
  /\ asNotepadAction (JObject [(js "action", JString (js "shout"));
                               (js "content", JString (js "X"))])
     = Some shout.
Proof.
  destruct unknown_action_skipped as [Hone [Hall Hparse]].
  split; [|split; [|split]].
  - apply Hone. reflexivity.
  - apply Hall. intros m [<-|[<-|[]]]; reflexivity.
  - apply (Hparse shoutReply
             (qq "{'notepad_modifications':[{'action':'shout','content':'X'}]}")
             [(js "notepad_modifications",
               JArray [JObject [(js "action", JString (js "shout"));
                                (js "content", JString (js "X"))]])]).
    + vm_compute. reflexivity.
    + discriminate.
    + vm_compute. reflexivity.
    + vm_compute. reflexivity.
  - vm_compute. reflexivity.
Defined.

(** ** Parse errors *)

(** The parse error of a response, if one was recorded. *)
Definition parsingError (r : ParsedAIResponse) : option str :=
  match notepadUpdate r with
  | Some u => error u
  | None => None
  end.

(** The captured text of the last fenced block of a reply, if it has one. *)
Definition lastBlock (raw : str) : option str :=
  match rev (matchAllBlocks 0 raw) with
  | (_, cap) :: _ => Some cap
  | [] => None
  end.

(** The specification's reading of a failed parse: the candidate as it is,
    without trailing commas, and without comments all fail to parse. *)
Definition repairs (cand : str) : list str :=
  [cand; stripTrailingCommas cand;
   stripBlockComments 0 (stripLineComments false (stripTrailingCommas cand))].

Definition unparsable (text : str) : bool :=
  match JSON_parse text with Some _ => false | None => true end.

Definition unparsableAfterRepairs (cand : str) : bool :=
  forallb unparsable (repairs cand).

Lemma parsingError_unfold (raw : str) :
  parsingError (parseAIResponse raw)
  = match fst (selectCandidate (matchAllBlocks 0 raw) raw) with
    | Some ((_ :: _) as cand) =>
      if isObject (robustJsonParse cand) then None
      else match matchAllBlocks 0 raw with
           | _ :: _ => Some parsingErrorText
           | [] => None
           end
    | _ => None
    end.
Proof.
  unfold parsingError, parseAIResponse.
  destruct (fst (selectCandidate (matchAllBlocks 0 raw) raw)) as [[|c cand]|];
    try reflexivity.
  destruct (isObject (robustJsonParse (c :: cand))).
  - destruct (match prop (js "notepad_modifications") (robustJsonParse (c :: cand))
              with Some (JArray items) => items | _ => [] end);
      destruct (match prop (js "discussion_complete") (robustJsonParse (c :: cand))
                with Some (JBool b) => b | _ => false end);
      reflexivity.
  - destruct (matchAllBlocks 0 raw); reflexivity.
Qed.

Lemma lastBlock_candidate (raw cap : str) :
  lastBlock raw = Some cap ->
  fst (selectCandidate (matchAllBlocks 0 raw) raw) = Some cap
  /\ matchAllBlocks 0 raw <> [].
Proof.
  unfold lastBlock, selectCandidate.
  destruct (matchAllBlocks 0 raw) as [|m ms]; [discriminate|].
  destruct (rev (m :: ms)) as [|[whole cap'] others]; [discriminate|].
  intros H. injection H as ->. split; [reflexivity|discriminate].
Qed.

Lemma lastBlock_none (raw : str) :
  lastBlock raw = None -> matchAllBlocks 0 raw = [].
Proof.
  unfold lastBlock. intros H.
  destruct (matchAllBlocks 0 raw) as [|m ms]; [reflexivity|].
  simpl in H. destruct (rev ms ++ [m]) as [|[whole cap] others] eqn:E.
  - apply app_eq_nil in E. destruct E as [_ E]. discriminate.
  - discriminate.
Qed.

Lemma robustJsonParse_unparsable (cand : str) :
  unparsableAfterRepairs cand = true -> robustJsonParse cand = JNull.
Proof.
  unfold unparsableAfterRepairs, repairs, unparsable, robustJsonParse. simpl.
  destruct cand as [|c cand]; [reflexivity|].
  destruct (JSON_parse (c :: cand)); [discriminate|].
  destruct (JSON_parse (stripTrailingCommas (c :: cand))); [discriminate|].
  destruct (JSON_parse _); [discriminate|reflexivity].
Qed.

(** A fenced block whose text is the number 42. *)
Definition numberReply : str := js "```" ++ [LF] ++ js "42" ++ [LF] ++ js "```".

(** C4, as stated, fails: the reply whose fenced block holds [42] has a
    candidate that parses as it is, and yet a parse error is recorded. *)
Lemma parse_error_on_parsable_block :
  lastBlock numberReply = Some (js "42")
  /\ unparsableAfterRepairs (js "42") = false
  /\ parsingError (parseAIResponse numberReply) = Some parsingErrorText.
Proof. vm_compute. repeat split; reflexivity. Qed.

(** C4, amended: a parse error is recorded if and only if the reply has a
    fenced block, the text captured from the last one is not empty, and the
    three-stage parse of it gives no object or array (it fails, or it gives
    a number, a text, a truth value or null); a candidate that stays
    unparsable after the three repairs is such a case; a reply without
    fenced block records no error; and with a parse error the parser still
    returns: the reply as spoken text, no directive, and no end signal. *)
Theorem parse_error_iff_block_without_object (raw : str) :
  (parsingError (parseAIResponse raw) = Some parsingErrorText
   <-> exists cap : str,
         lastBlock raw = Some cap /\ cap <> []
         /\ isObject (robustJsonParse cap) = false)
  /\ (parsingError (parseAIResponse raw) = None
      \/ parsingError (parseAIResponse raw) = Some parsingErrorText)
  /\ (forall cap : str,
        unparsableAfterRepairs cap = true ->
        isObject (robustJsonParse cap) = false)
  /\ (lastBlock raw = None -> parsingError (parseAIResponse raw) = None)
  /\ (parsingError (parseAIResponse raw) = Some parsingErrorText ->
      spokenText (parseAIResponse raw) = raw
      /\ parsedModifications (parseAIResponse raw) = []
      /\ discussionShouldEnd (parseAIResponse raw) = false).
Proof.
  repeat split.
  - rewrite parsingError_unfold. unfold lastBlock, selectCandidate.
    destruct (matchAllBlocks 0 raw) as [|m ms] eqn:Em.
    + simpl. intros H. exfalso.
      destruct (heuristicCandidate raw) as [[|c cand]|]; simpl in H;
        try discriminate.
      destruct (isObject _); discriminate.
    + destruct (rev (m :: ms)) as [|[whole cap] others] eqn:Er; simpl.
      * simpl in Er. apply app_eq_nil in Er. destruct Er as [_ Er].
        discriminate.
      * destruct cap as [|c cap]; [discriminate|].
        destruct (isObject (robustJsonParse (c :: cap))) eqn:Eo;
          [discriminate|].
        intros _. exists (c :: cap). repeat split; [discriminate|exact Eo].
  - intros [cap [Hlast [Hne Hobj]]].
    rewrite parsingError_unfold.
    destruct (lastBlock_candidate raw Hlast) as [Hsel Hms].
    rewrite Hsel. destruct cap as [|c cap]; [contradiction|].
    rewrite Hobj. destruct (matchAllBlocks 0 raw); [contradiction|reflexivity].
  - rewrite parsingError_unfold.
    destruct (fst _) as [[|c cand]|]; try (left; reflexivity).
    destruct (isObject _); [left; reflexivity|].
    destruct (matchAllBlocks 0 raw); [left|right]; reflexivity.
  - intros cap H. rewrite (robustJsonParse_unparsable cap H). reflexivity.
  - intros H. rewrite parsingError_unfold.
    rewrite (lastBlock_none raw H).
    destruct (fst _) as [[|c cand]|]; try reflexivity.
    destruct (isObject _); reflexivity.
  - revert H. unfold parsingError, parseAIResponse.
    destruct (fst (selectCandidate (matchAllBlocks 0 raw) raw)) as [[|c cand]|];
      try discriminate.
    destruct (isObject (robustJsonParse (c :: cand))).
    + destruct (match prop (js "notepad_modifications") (robustJsonParse (c :: cand))
                with Some (JArray items) => items | _ => [] end);
        destruct (match prop (js "discussion_complete") (robustJsonParse (c :: cand))
                  with Some (JBool b) => b | _ => false end);
        discriminate.
    + destruct (matchAllBlocks 0 raw); [discriminate|].
      intros _. cbn. destruct (trim raw); reflexivity.
  - revert H. unfold parsedModifications, parsingError, parseAIResponse.
    destruct (fst (selectCandidate (matchAllBlocks 0 raw) raw)) as [[|c cand]|];
      try discriminate.
    destruct (isObject (robustJsonParse (c :: cand))).
    + destruct (match prop (js "notepad_modifications") (robustJsonParse (c :: cand))
                with Some (JArray items) => items | _ => [] end);
        destruct (match prop (js "discussion_complete") (robustJsonParse (c :: cand))
                  with Some (JBool b) => b | _ => false end);
        discriminate.
    + destruct (matchAllBlocks 0 raw); [discriminate|]. reflexivity.
  - revert H. unfold parsingError, parseAIResponse.
    destruct (fst (selectCandidate (matchAllBlocks 0 raw) raw)) as [[|c cand]|];
      try discriminate.
    destruct (isObject (robustJsonParse (c :: cand))).
    + destruct (match prop (js "notepad_modifications") (robustJsonParse (c :: cand))
                with Some (JArray items) => items | _ => [] end);
        destruct (match prop (js "discussion_complete") (robustJsonParse (c :: cand))
                  with Some (JBool b) => b | _ => false end);
        discriminate.
    + destruct (matchAllBlocks 0 raw); [discriminate|]. reflexivity.
Qed.

(** ** Runs of line feeds *)

Arguments char_eqb : simpl never.

Definition LF3 : str := [LF; LF; LF].

Fixpoint leadingLFs (s : str) : nat :=
  match s with
  | c :: r => if char_eqb c LF then S (leadingLFs r) else 0
  | [] => 0
  end.

Lemma includes_cons (p : str) (c : char) (s : str) :
  includes p (c :: s) = (startsWith p (c :: s) || includes p s)%bool.
Proof.
  unfold includes. simpl splitAtFirst.
  destruct (startsWith p (c :: s)); [reflexivity|].
  destruct (splitAtFirst p s) as [[b a]|]; reflexivity.
Qed.

Lemma char_eqb_sym (a b : char) : char_eqb a b = char_eqb b a.
Proof. apply N.eqb_sym. Qed.

Lemma startsWith_LF3 (s : str) :
  startsWith LF3 s = Nat.leb 3 (leadingLFs s).
Proof.
  unfold LF3.
  destruct s as [|a s]; [reflexivity|].
  cbn [startsWith leadingLFs]. rewrite (char_eqb_sym LF a).
  destruct (char_eqb a LF); [|reflexivity].
  destruct s as [|b s]; [reflexivity|].
  cbn [startsWith leadingLFs andb]. rewrite (char_eqb_sym LF b).
  destruct (char_eqb b LF); [|reflexivity].
  destruct s as [|c s]; [reflexivity|].
  cbn [startsWith leadingLFs andb]. rewrite (char_eqb_sym LF c).
  destruct (char_eqb c LF); reflexivity.
Qed.

Lemma collapse_leading (s : str) :
  forall run : nat, leadingLFs (collapseNewlines run s) + Nat.min run 2 <= 2.
Proof.
  induction s as [|c s IH]; intros run; simpl; [lia|].
  destruct (char_eqb c LF) eqn:Ec.
  - destruct (Nat.ltb run 2) eqn:Er.
    + apply Nat.ltb_lt in Er. simpl. rewrite Ec.
      specialize (IH (S run)). lia.
    + apply IH.
  - simpl. rewrite Ec. lia.
Qed.

(** After the collapse no three line feeds follow one another. *)
Lemma collapse_no_LF3 (s : str) :
  forall run : nat, includes LF3 (collapseNewlines run s) = false.
Proof.
  induction s as [|c s IH]; intros run; simpl; [reflexivity|].
  destruct (char_eqb c LF) eqn:Ec.
  - destruct (Nat.ltb run 2) eqn:Er; [|apply IH].
    rewrite includes_cons, IH, orb_false_r, startsWith_LF3.
    cbn [leadingLFs]. rewrite Ec. apply Nat.leb_gt.
    pose proof (collapse_leading s (S run)). lia.
  - rewrite includes_cons, IH, orb_false_r, startsWith_LF3.
    cbn [leadingLFs]. rewrite Ec. reflexivity.
Qed.

(** The collapse changes nothing in a text without three line feeds in a
    row. *)
Lemma collapse_fixes (s : str) :
  forall run : nat,
    leadingLFs s + run <= 2 -> includes LF3 s = false ->
    collapseNewlines run s = s.
Proof.
  induction s as [|c s IH]; intros run Hlead Hinc; simpl; [reflexivity|].
  rewrite includes_cons in Hinc. apply orb_false_iff in Hinc.
  destruct Hinc as [Hst Hinc]. simpl in Hlead.
  destruct (char_eqb c LF) eqn:Ec.
  - assert (Er : Nat.ltb run 2 = true) by (apply Nat.ltb_lt; lia).
    rewrite Er. f_equal. apply IH; [lia|exact Hinc].
  - f_equal. apply IH; [|exact Hinc].
    clear - Hinc.
    assert (H : Nat.leb 3 (leadingLFs s) = false).
    { destruct s as [|d s]; [reflexivity|].
      rewrite includes_cons in Hinc. apply orb_false_iff in Hinc.
      rewrite <- startsWith_LF3. apply Hinc. }
    apply Nat.leb_gt in H. lia.
Qed.

(** ** Blank lines in the patched document *)

Definition blankLine (l : str) : bool :=
  match trim l with [] => true | _ :: _ => false end.

(** Three lines in a row are blank. *)
Fixpoint blankRun3 (lines : list str) : bool :=
  match lines with
  | a :: ((b :: c :: _) as rest) =>
    (blankLine a && blankLine b && blankLine c || blankRun3 rest)%bool
  | _ => false
  end.

Definition threeBlankLines (doc : str) : bool := blankRun3 (split LF doc).

Lemma applyFrom_snoc (mods : list NotepadAction) (m : NotepadAction) :
  forall (i : nat) (doc : str) (errs : list str),
    applyFrom i (mods ++ [m]) doc errs
    = applyOne (fst (applyFrom i mods doc errs)) (snd (applyFrom i mods doc errs))
               m (i + length mods).
Proof.
  induction mods as [|m0 mods IH]; intros i doc errs; simpl.
  - rewrite Nat.add_0_r. destruct (applyOne doc errs m i); reflexivity.
  - destruct (applyOne doc errs m0 i) as [c e]. rewrite IH.
    replace (S i + length mods) with (i + S (length mods)) by lia.
    reflexivity.
Qed.

Lemma newContent_apply (doc : str) (mods : list NotepadAction) :
  newContent (applyNotepadModifications doc mods)
  = fst (applyFrom 0 mods doc []).
Proof.
  unfold applyNotepadModifications.
  destruct (applyFrom 0 mods doc []); reflexivity.
Qed.

(** A section edit whose header is resolved ends with the collapse. *)
Lemma applyOne_section_collapsed (doc : str) (errs : list str)
    (m : NotepadAction) (i : nat) :
  action m = js "replace_section" \/ action m = js "append_to_section" ->
  index (findHeaderLineIndex (split LF doc) (header m)) <> (-1)%Z ->
  exists final : str, fst (applyOne doc errs m i) = collapseNewlines 0 final.
Proof.
  intros Hact Hidx. apply Z.eqb_neq in Hidx. unfold applyOne.
  destruct Hact as [-> | ->].
  - change (str_eqb (js "replace_section") (js "replace_all")) with false.
    change (str_eqb (js "replace_section") (js "append")) with false.
    change (str_eqb (js "replace_section") (js "prepend")) with false.
    change (str_eqb (js "replace_section") (js "replace_section")) with true.
    cbv iota. rewrite Hidx. eexists. reflexivity.
  - change (str_eqb (js "append_to_section") (js "replace_all")) with false.
    change (str_eqb (js "append_to_section") (js "append")) with false.
    change (str_eqb (js "append_to_section") (js "prepend")) with false.
    change (str_eqb (js "append_to_section") (js "replace_section")) with false.
    change (str_eqb (js "append_to_section") (js "append_to_section")) with true.
    cbv iota. rewrite Hidx. eexists. reflexivity.
Qed.

(** A document with three empty lines, and one directive that appends. *)
Definition gappedDoc : str := js "a" ++ [LF; LF; LF; LF] ++ js "b".

(** C3, as stated, fails: appending to a document with three empty lines in
    a row returns a document that still has them (four line feeds in a
    row). *)
Lemma append_keeps_blank_run :
  applyNotepadModifications gappedDoc [append (js "c")]
  = {| newContent := gappedDoc ++ [LF] ++ js "c"; errors := [] |}
  /\ threeBlankLines
       (newContent (applyNotepadModifications gappedDoc [append (js "c")]))
     = true
  /\ includes LF3
       (newContent (applyNotepadModifications gappedDoc [append (js "c")]))
     = true.
Proof. vm_compute. repeat split; reflexivity. Qed.

(** C3, amended: when the last directive of the list is a ReplaceSection or
    an AppendToSection whose header is resolved in the document it is
    applied to, the returned document has no three line feeds in a row. *)
Theorem section_edit_leaves_no_newline_run
    (doc : str) (mods : list NotepadAction) (m : NotepadAction) :
  action m = js "replace_section" \/ action m = js "append_to_section" ->
  index (findHeaderLineIndex
           (split LF (newContent (applyNotepadModifications doc mods)))
           (header m)) <> (-1)%Z ->
  includes LF3 (newContent (applyNotepadModifications doc (mods ++ [m])))
  = false.
Proof.
  intros Hact Hidx.
  rewrite newContent_apply in *. rewrite applyFrom_snoc.
  destruct (applyOne_section_collapsed
              (fst (applyFrom 0 mods doc [])) (snd (applyFrom 0 mods doc []))
              m (0 + length mods) Hact Hidx) as [final ->].
  apply collapse_no_LF3.
Qed.

Definition gappedSections : str :=
  js "## A" ++ [LF] ++ js "old" ++ [LF] ++ js "## B" ++ [LF; LF; LF; LF] ++ js "y".

Lemma section_edit_leaves_no_newline_run_witness :
  includes LF3
    (newContent (applyNotepadModifications gappedSections
                   ([append (js "z")] ++ [append_to_section (js "A") (js "new")])))
  = false.
Proof.
  apply (section_edit_leaves_no_newline_run gappedSections [append (js "z")]
           (append_to_section (js "A") (js "new"))).
  - right. reflexivity.
  - vm_compute. discriminate.
Defined.

(** ** The section after the one replaced *)

Lemma structuralPass_hit (nt st : str) (lines : list str) :
  forall (i0 : nat) (h : HeaderLine),
    structuralPass nt st i0 lines = Some h ->
    exists (k : nat) (l : str),
      index h = Z.of_nat (i0 + k) /\ nth_error lines k = Some l
      /\ level h = fst (classify (trim l)).
Proof.
  induction lines as [|l lines IH]; intros i0 h H; simpl in H; [discriminate|].
  assert (Hnext : structuralPass nt st (S i0) lines = Some h ->
                  exists (k : nat) (l' : str),
                    index h = Z.of_nat (i0 + k)
                    /\ nth_error (l :: lines) k = Some l'
                    /\ level h = fst (classify (trim l'))).
  { intros Hn. destruct (IH _ _ Hn) as [k [l' [Hi [Hl Hv]]]].
    exists (S k), l'. repeat split; [|exact Hl|exact Hv].
    rewrite Hi. f_equal. lia. }
  destruct (trim l) as [|c t] eqn:Et; [auto|].
  destruct (classify (c :: t)) as [lvl [|d text]] eqn:Ec; [auto|].
  destruct (headerMatches nt st (d :: text)); [|auto].
  injection H as <-. exists 0, l. simpl. rewrite Et, Ec.
  repeat split. f_equal. lia.
Qed.

Lemma fallbackPass_hit (nt : str) (lines : list str) :
  forall (i0 : nat) (h : HeaderLine),
    fallbackPass nt i0 lines = Some h -> level h = 2.
Proof.
  induction lines as [|l lines IH]; intros i0 h H; simpl in H; [discriminate|].
  destruct (toLowerCase (trim l)); [eauto|].
  destruct (eitherIncludes _ _); [|eauto].
  injection H as <-. reflexivity.
Qed.

(** A target resolved to a line [## A] is resolved at level 2. *)
Lemma resolved_level (lines : list str) (hdr : str) (i : nat) :
  nth_error lines i = Some (js "## A") ->
  index (findHeaderLineIndex lines hdr) = Z.of_nat i ->
  level (findHeaderLineIndex lines hdr) = 2.
Proof.
  intros Hl Hi. unfold findHeaderLineIndex in *.
  destruct hdr as [|c hdr]; [simpl in Hi; lia|].
  set (nt := normalize (c :: hdr)) in *.
  set (st := superClean nt) in *.
  assert (Hgo :
    index (match structuralPass nt st 0 lines with
           | Some h => h
           | None => match fallbackPass nt 0 lines with
                     | Some h => h | None => notFound end
           end) = Z.of_nat i ->
    level (match structuralPass nt st 0 lines with
           | Some h => h
           | None => match fallbackPass nt 0 lines with
                     | Some h => h | None => notFound end
           end) = 2).
  { destruct (structuralPass nt st 0 lines) as [h|] eqn:Es.
    - intros Hi'. destruct (structuralPass_hit _ _ _ _ Es) as [k [l [Hk [Hnth Hlv]]]].
      assert (k = i) by lia. subst k. rewrite Hl in Hnth. injection Hnth as <-.
      rewrite Hlv. vm_compute. reflexivity.
    - destruct (fallbackPass nt 0 lines) as [h|] eqn:Ef.
      + intros _. exact (fallbackPass_hit _ _ _ Ef).
      + simpl. lia. }
  destruct nt as [|n nt']; [destruct st as [|s st']|]; auto.
  simpl in Hi. lia.
Qed.

Lemma sectionEndFrom_bounds (lv : nat) (rest : list str) :
  forall (i k : nat) (l : str) (cur : nat),
    nth_error rest k = Some l -> headingLevel l = Some cur -> cur <= lv ->
    i <= sectionEndFrom lv i rest <= i + k.
Proof.
  induction rest as [|l0 rest IH]; intros i k l cur Hnth Hh Hle.
  - destruct k; discriminate.
  - simpl. destruct k as [|k]; simpl in Hnth.
    + injection Hnth as ->. rewrite Hh.
      apply Nat.leb_le in Hle. rewrite Hle. lia.
    + specialize (IH (S i) k l cur Hnth Hh Hle).
      destruct (headingLevel l0) as [c0|]; [|lia].
      destruct (Nat.leb c0 lv); lia.
Qed.

Lemma join_app (sep : str) (xs ys : list str) :
  xs <> [] -> ys <> [] -> join sep (xs ++ ys) = join sep xs ++ sep ++ join sep ys.
Proof.
  intros Hx Hy. induction xs as [|x xs IH]; [contradiction|].
  destruct xs as [|x' xs].
  - simpl. destruct ys; [contradiction|reflexivity].
  - change (join sep ((x :: x' :: xs) ++ ys))
      with (x ++ sep ++ join sep ((x' :: xs) ++ ys)).
    rewrite IH by discriminate.
    change (join sep (x :: x' :: xs)) with (x ++ sep ++ join sep (x' :: xs)).
    rewrite <- !app_assoc. reflexivity.
Qed.

Lemma collapse_app (p : str) (c : char) (t : str) :
  char_eqb c LF = false ->
  forall run : nat,
    collapseNewlines run (p ++ c :: t)
    = collapseNewlines run p ++ collapseNewlines 0 (c :: t).
Proof.
  intros Hc. induction p as [|d p IH]; intros run.
  - simpl. rewrite Hc. reflexivity.
  - simpl. destruct (char_eqb d LF).
    + destruct (Nat.ltb run 2); [simpl; f_equal|]; apply IH.
    + simpl. f_equal. apply IH.
Qed.

Lemma skipn_split_at (A : Type) (l : list A) (e j : nat) :
  e <= j -> skipn e l = firstn (j - e) (skipn e l) ++ skipn j l.
Proof.
  intros H. rewrite <- (firstn_skipn (j - e) (skipn e l)) at 1.
  f_equal. rewrite skipn_skipn. f_equal. lia.
Qed.

Lemma applyOne_replace_section (doc : str) (errs : list str)
    (hdr content : str) (i : nat) :
  index (findHeaderLineIndex (split LF doc) hdr) <> (-1)%Z ->
  applyOne doc errs (replace_section hdr content) i
  = (let lines := split LF doc in
     let h := findHeaderLineIndex lines hdr in
     let startLineIndex := Z.to_nat (index h) in
     collapseNewlines 0
       (join NL (firstn (startLineIndex + 1) lines
                 ++ [if startsWith NL content then content else NL ++ content]
                 ++ skipn (sectionEnd lines startLineIndex (level h)) lines)),
     errs).
Proof.
  intros Hidx. apply Z.eqb_neq in Hidx. unfold applyOne.
  cbn [action replace_section header Notepad.content].
  change (str_eqb (js "replace_section") (js "replace_all")) with false.
  change (str_eqb (js "replace_section") (js "append")) with false.
  change (str_eqb (js "replace_section") (js "prepend")) with false.
  change (str_eqb (js "replace_section") (js "replace_section")) with true.
  cbv iota. rewrite Hidx. reflexivity.
Qed.

(** C2, as stated, fails: in the document whose section B holds three empty
    lines, replacing section A changes the lines under [## B]: two of the
    three empty lines are gone, and the new document does not end with the
    old text from [## B] on. *)
Lemma replace_section_collapses_later_section :
  nth_error (split LF gappedSections) 0 = Some (js "## A")
  /\ nth_error (split LF gappedSections) 2 = Some (js "## B")
  /\ findHeaderLineIndex (split LF gappedSections) (js "A")
     = {| index := 0; level := 2 |}
  /\ applyNotepadModifications gappedSections [replace_section (js "A") (js "new")]
     = {| newContent :=
            js "## A" ++ [LF; LF] ++ js "new" ++ [LF] ++ js "## B"
            ++ [LF; LF] ++ js "y";
          errors := [] |}
  /\ endsWith (join NL (skipn 2 (split LF gappedSections)))
       (newContent (applyNotepadModifications gappedSections
                      [replace_section (js "A") (js "new")]))
     = false.
Proof. vm_compute. repeat split; reflexivity. Qed.

(** C2, amended: when the document has a line [## A] and later a line
    [## B], and the target of a ReplaceSection is resolved to the line
    [## A], the directive succeeds and the new document ends with the text
    from the [## B] header to the end of the old document in which every run
    of three or more line feeds is cut to two; that text is unchanged when
    it has no such run. *)
Theorem replace_section_keeps_later_section
    (doc hdr content : str) (i j : nat) :
  nth_error (split LF doc) i = Some (js "## A") ->
  nth_error (split LF doc) j = Some (js "## B") ->
  i < j ->
  index (findHeaderLineIndex (split LF doc) hdr) = Z.of_nat i ->
  exists kept : str,
    applyNotepadModifications doc [replace_section hdr content]
    = {| newContent :=
           kept ++ collapseNewlines 0 (join NL (skipn j (split LF doc)));
         errors := [] |}
    /\ (includes LF3 (join NL (skipn j (split LF doc))) = false ->
        collapseNewlines 0 (join NL (skipn j (split LF doc)))
        = join NL (skipn j (split LF doc))).
Proof.
  intros HA HB Hij Hidx.
  set (lines := split LF doc) in *.
  assert (Hlevel : level (findHeaderLineIndex lines hdr) = 2)
    by (exact (@resolved_level lines hdr i HA Hidx)).
  assert (Hfound : index (findHeaderLineIndex lines hdr) <> (-1)%Z) by lia.
  (* the section ends at or before the line of B *)
  assert (Hend : S i <= sectionEnd lines i 2 <= j).
  { unfold sectionEnd.
    assert (Hnth : nth_error (skipn (S i) lines) (j - S i) = Some (js "## B")).
    { rewrite nth_error_skipn. replace (S i + (j - S i)) with j by lia. exact HB. }
    pose proof (@sectionEndFrom_bounds 2 (skipn (S i) lines) (S i) (j - S i)
                  (js "## B") 2 Hnth eq_refl (le_n 2)) as Hb.
    lia. }
  (* the tail starts with the header of B *)
  assert (Htail : exists t, join NL (skipn j lines) = ch "#" :: t).
  { destruct (nth_error_split lines j HB) as [l1 [l2 [Hl Hlen]]].
    rewrite Hl. rewrite skipn_app, Hlen, Nat.sub_diag, skipn_all2 by lia.
    simpl skipn. cbn [app]. destruct l2; eexists; reflexivity. }
  destruct Htail as [t Ht].
  set (e := sectionEnd lines i 2) in *.
  set (x := firstn (i + 1) lines
            ++ [if startsWith NL content then content else NL ++ content]
            ++ firstn (j - e) (skipn e lines)).
  exists (collapseNewlines 0 (join NL x ++ NL)).
  split.
  - unfold applyNotepadModifications. cbn [applyFrom].
    rewrite applyOne_replace_section by exact Hfound.
    fold lines. cbv zeta. rewrite Hidx, Nat2Z.id, Hlevel. fold e.
    f_equal.
    rewrite (@skipn_split_at _ lines e j) by lia.
    replace (firstn (i + 1) lines
             ++ [if startsWith NL content then content else NL ++ content]
             ++ firstn (j - e) (skipn e lines) ++ skipn j lines)
      with (x ++ skipn j lines)
      by (unfold x; rewrite <- !app_assoc; reflexivity).
    rewrite join_app.
    + rewrite Ht. rewrite app_assoc. apply collapse_app. reflexivity.
    + unfold x. intros Hx. apply app_eq_nil in Hx. destruct Hx as [_ Hx].
      discriminate.
    + intros Hs. rewrite Hs in Ht. discriminate.
  - intros Hinc. apply collapse_fixes; [|exact Hinc].
    rewrite Ht. change (leadingLFs (ch "#" :: t)) with 0. lia.
Qed.

Lemma replace_section_keeps_later_section_witness :
  exists kept : str,
    applyNotepadModifications gappedSections [replace_section (js "A") (js "new")]
    = {| newContent :=
           kept ++ collapseNewlines 0
                     (join NL (skipn 2 (split LF gappedSections)));
         errors := [] |}
    /\ (includes LF3 (join NL (skipn 2 (split LF gappedSections))) = false ->
        collapseNewlines 0 (join NL (skipn 2 (split LF gappedSections)))
        = join NL (skipn 2 (split LF gappedSections))).
Proof.
  apply (@replace_section_keeps_later_section gappedSections (js "A")
           (js "new") 0 2).
  - reflexivity.
  - reflexivity.
  - lia.
  - vm_compute. reflexivity.
Defined.

(** ** The step executor: streaming *)

Arguments str_eqb : simpl never.
Arguments js : simpl never.

(** The events of a step since the world [w]. *)
Definition newEvents (w w' : World) : list Event :=
  skipn (length (trace w)) (trace w').

Definition isUpdate (e : Event) : bool :=
  match e with MessageUpdated _ _ => true | _ => false end.

Definition isCancelRequest (e : Event) : bool :=
  match e with CancelRequested => true | _ => false end.

Definition isSnapshot (e : Event) : bool :=
  match e with FailedStepInfoSet _ => true | _ => false end.

(** Neither a cancel request nor a failure snapshot. *)
Definition benign (e : Event) : Prop :=
  isCancelRequest e = false /\ isSnapshot e = false.

(** The events of a cancelled run: none is a snapshot, and after the cancel
    request, which is the only one, there are only updates of the message
    whose stream was under way. *)
Definition cancelledLast (evs : list Event) : Prop :=
  exists pre ups : list Event,
    evs = pre ++ CancelRequested :: ups
    /\ Forall benign pre /\ forallb isUpdate ups = true.

(** Both sides are the same list up to the bracketing of appends. *)
Ltac same_list :=
  repeat first [rewrite <- app_assoc | progress cbn [app]]; reflexivity.

Lemma newEvents_app (w w' : World) (evs : list Event) :
  trace w' = trace w ++ evs -> newEvents w w' = evs.
Proof.
  intros H. unfold newEvents. rewrite H, skipn_app, skipn_all, Nat.sub_diag.
  reflexivity.
Qed.

Lemma updates_benign (ups : list Event) :
  forallb isUpdate ups = true -> Forall benign ups.
Proof.
  induction ups as [|e ups IH]; intros H; [constructor|].
  cbn in H. apply andb_true_iff in H. destruct H as [He Hu].
  constructor; [|exact (IH Hu)].
  destruct e; try discriminate. split; reflexivity.
Qed.

Lemma benign_no_cancel (evs : list Event) :
  Forall benign evs -> existsb isCancelRequest evs = false.
Proof.
  induction 1 as [|e evs [He _] _ IH]; [reflexivity|].
  cbn. rewrite He, IH. reflexivity.
Qed.

Lemma cancelledLast_app (evs1 evs2 : list Event) :
  Forall benign evs1 -> cancelledLast evs2 -> cancelledLast (evs1 ++ evs2).
Proof.
  intros H1 [pre [ups [-> [Hpre Hups]]]].
  exists (evs1 ++ pre), ups. repeat split; [same_list| |exact Hups].
  apply Forall_app. split; assumption.
Qed.

Lemma cancelledLast_snoc (evs : list Event) :
  Forall benign evs -> cancelledLast (evs ++ [CancelRequested]).
Proof.
  intros H. exists evs, []. repeat split. exact H.
Qed.

(** What streaming leaves of the world: the messages and the trace change,
    the trace by updates of messages; when the user cancels meanwhile the
    flag is up at the end and the request is among the updates. *)
Lemma streamAll_run (cs : list Chunk) :
  forall (cancelAfter : option nat) (msgId : nat) (t th : str) (w : World),
  exists (w' : World) (evs : list Event),
    streamAll msgId t th cancelAfter cs w = (Ok tt, w')
    /\ idsIssued w' = idsIssued w
    /\ failedStepInfo w' = failedStepInfo w
    /\ trace w' = trace w ++ evs
    /\ match cancelAfter with
       | None => cancelRequest w' = cancelRequest w
                 /\ forallb isUpdate evs = true
       | Some _ => cancelRequest w' = true /\ cancelledLast evs
       end.
Proof.
  induction cs as [|c cs IH]; intros cancelAfter msgId t th w.
  - destruct cancelAfter as [k|]; cbn.
    + eexists _, [CancelRequested]. repeat split.
      exact (cancelledLast_snoc (Forall_nil benign)).
    + exists w, []. rewrite app_nil_r. repeat split.
  - cbn [streamAll]. unfold bind at 1 2, updateMessage at 1, modify at 1.
    destruct cancelAfter as [[|k]|]; unfold userCancels, modify, ret;
      match goal with
      | |- context [streamAll msgId ?t' ?th' ?ca cs ?w1] =>
        destruct (IH ca msgId t' th' w1) as [w' [evs [Hrun [Hi [Hf [Ht Hc]]]]]]
      end;
      rewrite Hrun; cbn in Hi, Hf, Ht, Hc.
    + destruct Hc as [Hc Hu].
      eexists w', (CancelRequested :: _ :: evs).
      repeat split; try assumption; [rewrite Ht; same_list|].
      eexists [], (_ :: evs). repeat split; [constructor|].
      cbn. exact Hu.
    + destruct Hc as [Hc Hl].
      eexists w', (_ :: evs).
      repeat split; try assumption; [rewrite Ht; same_list|].
      apply (cancelledLast_app (evs1 := [_])); [|exact Hl].
      repeat constructor.
    + destruct Hc as [Hc Hu].
      eexists w', (_ :: evs).
      repeat split; try assumption; [rewrite Ht; same_list|].
      cbn. exact Hu.
Qed.

(** ** The step executor: one round of the loop *)

Section StepRuns.

Variable MAX_AUTO_RETRIES : nat.
Variable RETRY_DELAY_BASE_MS : Z.
Variable GEMINI_3_PRO_MODEL_ID : str.
Variable props : Props.
Variable env : Environment.
Variable args : StepArgs.

Lemma iteration_cancelled (n : nat) (w : World) :
  cancelRequest w = true ->
  iteration MAX_AUTO_RETRIES RETRY_DELAY_BASE_MS GEMINI_3_PRO_MODEL_ID props
    env args n w = (Throw cancelled, w).
Proof.
  intros H. unfold iteration, bind, gets. rewrite H. reflexivity.
Qed.

(** The block under [try], from a world where the flag is down: either the
    user cancels during the call, and the block throws; or the flag stays
    down, and an error thrown is one made by the block or the one the
    transport rejected with. No snapshot is written. *)
Lemma tryBlock_run (n msgId : nat) (w : World) :
  cancelRequest w = false ->
  exists (r : Result ParsedAIResponse) (w' : World) (evs : list Event),
    tryBlock GEMINI_3_PRO_MODEL_ID props env args n msgId w = (r, w')
    /\ failedStepInfo w' = failedStepInfo w
    /\ trace w' = trace w ++ evs
    /\ ((cancelRequest w' = true /\ (exists e, r = Throw e)
         /\ cancelledLast evs)
        \/ (cancelRequest w' = false /\ Forall benign evs
            /\ forall e, r = Throw e ->
                 errorName e = js "Error"
                 \/ transportEnd (env n) = Rejects e)).
Proof.
  intros Hflag.
  unfold tryBlock, callTransport, bind, modify, gets.
  match goal with
  | |- context [streamAll ?i ?t ?th ?ca ?cs ?w1] =>
    destruct (streamAll_run cs ca i t th w1)
      as [w3 [ups [Hrun [Hi [Hf [Ht Hc]]]]]]
  end.
  rewrite Hrun. cbn in Hi, Hf, Ht, Hc.
  rewrite <- app_assoc in Ht. cbn [app] in Ht.
  assert (Hcall : benign (TransportCalled
                            (request GEMINI_3_PRO_MODEL_ID props args)))
    by (split; reflexivity).
  unfold ret.
  destruct (cancelDuringCall (env n)) as [k|].
  - (* the user cancels while the call is pending *)
    destruct Hc as [Hc Hl].
    assert (Hl' : cancelledLast
                    (TransportCalled (request GEMINI_3_PRO_MODEL_ID props args)
                     :: ups))
      by (apply (cancelledLast_app (evs1 := [_])); [repeat constructor|exact Hl]).
    destruct (transportEnd (env n)) as [p|e]; cbn; rewrite ?Hc;
      (do 2 eexists; eexists (_ :: ups); split; [reflexivity|];
       repeat split; [exact Hf|exact Ht|];
       left; repeat split; [exact Hc|eexists; reflexivity|exact Hl']).
  - destruct Hc as [Hc Hu]. apply updates_benign in Hu.
    destruct (transportEnd (env n)) as [p|e]; cbn; rewrite ?Hc, ?Hflag.
    + assert (Hdone : Forall benign
                (TransportCalled (request GEMINI_3_PRO_MODEL_ID props args)
                 :: ups
                 ++ [MessageUpdated msgId
                       (spokenText (parseAIResponse (resultText p)))])).
      { constructor; [exact Hcall|]. apply Forall_app. split; [exact Hu|].
        repeat constructor. }
      destruct (resultError p) as [[|c err]|]; cbn.
      * do 2 eexists. eexists (_ :: ups ++ [_]).
        split; [reflexivity|]. cbn.
        repeat split; [exact Hf|rewrite Ht; same_list|].
        right. repeat split; [congruence|exact Hdone|discriminate].
      * match goal with
        | |- context [str_eqb ?a ?b] => destruct (str_eqb a b)
        end;
          (do 2 eexists; eexists (_ :: ups); split; [reflexivity|]; cbn;
           repeat split; [exact Hf|exact Ht|];
           right; repeat split; [congruence|constructor; assumption|];
           intros e He; injection He as <-; left; reflexivity).
      * do 2 eexists. eexists (_ :: ups ++ [_]).
        split; [reflexivity|]. cbn.
        repeat split; [exact Hf|rewrite Ht; same_list|].
        right. repeat split; [congruence|exact Hdone|discriminate].
    + do 2 eexists. eexists (_ :: ups). split; [reflexivity|].
      repeat split; [exact Hf|exact Ht|].
      right. repeat split; [congruence|constructor; assumption|].
      intros e' He. injection He as <-. right. reflexivity.
Qed.

(** The block under [catch]. *)
Lemma catchBlock_cancelled (n : nat) (e : JsError) (w : World) :
  cancelRequest w = true ->
  catchBlock MAX_AUTO_RETRIES RETRY_DELAY_BASE_MS props env args n e w
  = (Throw cancelled, w).
Proof.
  intros H. unfold catchBlock, bind, gets. rewrite H. reflexivity.
Qed.

(** From a world where the flag is down the block schedules a retry, during
    whose delay the user may cancel; or it takes an abort for a
    cancellation; or it writes the snapshot and throws the error on. *)
Lemma catchBlock_run (n : nat) (e : JsError) (w : World) :
  cancelRequest w = false ->
  exists (r : Result (option ParsedAIResponse)) (w' : World) (evs : list Event),
    catchBlock MAX_AUTO_RETRIES RETRY_DELAY_BASE_MS props env args n e w = (r, w')
    /\ trace w' = trace w ++ evs
    /\ ((r = Ok None /\ n < MAX_AUTO_RETRIES
         /\ failedStepInfo w' = failedStepInfo w
         /\ ((cancelRequest w' = false /\ Forall benign evs)
             \/ (cancelRequest w' = true /\ cancelledLast evs)))
        \/ (r = Throw cancelled /\ errorName e = js "AbortError"
            /\ cancelRequest w' = false /\ evs = []
            /\ failedStepInfo w' = failedStepInfo w)
        \/ (r = Throw e /\ cancelRequest w' = false
            /\ exists (pre : list Event) (p : FailedStepPayload),
                 evs = pre ++ [FailedStepInfoSet p] /\ Forall benign pre
                 /\ failedStepInfo w' = Some p)).
Proof.
  intros Hflag. unfold catchBlock, bind at 1, gets. rewrite Hflag.
  cbn [orb].
  destruct (str_eqb (errorName e) (js "AbortError")) eqn:Ename.
  - exists (Throw cancelled), w, []. split; [reflexivity|].
    split; [rewrite app_nil_r; reflexivity|].
    right. left. apply str_eqb_eq in Ename. repeat split; assumption.
  - destruct (Nat.ltb n MAX_AUTO_RETRIES) eqn:En.
    + apply Nat.ltb_lt in En.
      unfold sleep, userMayCancel, when, userCancels.
      destruct (cancelDuringDelay (env n)); cbn.
      * do 2 eexists. eexists [_; _; _]. split; [reflexivity|]. cbn.
        split; [same_list|]. left.
        split; [reflexivity|]. split; [exact En|]. split; [reflexivity|].
        right. split; [reflexivity|].
        apply (cancelledLast_snoc (evs := [_; _])). repeat constructor.
      * do 2 eexists. eexists [_; _]. split; [reflexivity|]. cbn.
        split; [same_list|]. left.
        split; [reflexivity|]. split; [exact En|]. split; [reflexivity|].
        left. split; [exact Hflag|]. repeat constructor.
    + cbn. do 2 eexists. eexists [_; _]. split; [reflexivity|]. cbn.
      split; [same_list|]. right. right.
      split; [reflexivity|]. split; [exact Hflag|].
      eexists [_], _. split; [reflexivity|]. split; [|reflexivity].
      repeat constructor.
Qed.

(** How one round of the loop ends. *)
Inductive RoundEnd (n : nat) (w : World)
  : Result (option ParsedAIResponse) -> World -> list Event -> Prop :=
| RoundCancelled r w' evs :
    cancelRequest w' = true ->
    r = Throw cancelled \/ (r = Ok None /\ n < MAX_AUTO_RETRIES) ->
    failedStepInfo w' = failedStepInfo w ->
    cancelledLast evs ->
    RoundEnd n w r w' evs
| RoundRetry w' evs :
    cancelRequest w' = false -> n < MAX_AUTO_RETRIES ->
    failedStepInfo w' = failedStepInfo w ->
    Forall benign evs ->
    RoundEnd n w (Ok None) w' evs
| RoundSuccess parsed w' evs :
    cancelRequest w' = false ->
    failedStepInfo w' = failedStepInfo w ->
    Forall benign evs ->
    RoundEnd n w (Ok (Some parsed)) w' evs
| RoundAborted e w' evs :
    cancelRequest w' = false ->
    failedStepInfo w' = failedStepInfo w ->
    Forall benign evs ->
    transportEnd (env n) = Rejects e -> errorName e = js "AbortError" ->
    RoundEnd n w (Throw cancelled) w' evs
| RoundFailed e w' pre p :
    cancelRequest w' = false ->
    failedStepInfo w' = Some p ->
    Forall benign pre ->
    RoundEnd n w (Throw e) w' (pre ++ [FailedStepInfoSet p]).

Lemma iteration_run (n : nat) (w : World) :
  cancelRequest w = false ->
  exists (r : Result (option ParsedAIResponse)) (w' : World) (evs : list Event),
    iteration MAX_AUTO_RETRIES RETRY_DELAY_BASE_MS GEMINI_3_PRO_MODEL_ID props
      env args n w = (r, w')
    /\ trace w' = trace w ++ evs
    /\ RoundEnd n w r w' evs.
Proof.
  intros Hflag.
  unfold iteration, bind at 1, gets. rewrite Hflag.
  unfold bind at 1, ret at 1, bind at 1.
  destruct (addMessage [] (senderForStep args) (purposeForStep args) w)
    as [rid w1] eqn:Eadd.
  unfold addMessage, generateUniqueId, bind, gets, modify, ret in Eadd.
  injection Eadd as <- <-.
  set (w1 := log _ _).
  assert (Hflag1 : cancelRequest w1 = false) by exact Hflag.
  assert (Hf1 : failedStepInfo w1 = failedStepInfo w) by reflexivity.
  assert (Ht1 : exists ph, trace w1 = trace w ++ [ph] /\ benign ph)
    by (eexists; split; [reflexivity|split; reflexivity]).
  destruct Ht1 as [ph [Ht1 Hph]].
  clearbody w1.
  unfold tryCatch, bind at 1.
  destruct (@tryBlock_run n (idsIssued w) w1 Hflag1)
    as [r [w2 [evs [Hrun [Hf2 [Ht2 Hcase]]]]]].
  rewrite Hrun.
  assert (Hph1 : Forall benign [ph]) by (repeat constructor; apply Hph).
  destruct Hcase as [[Hc2 [[e He] Hl]] | [Hc2 [Hb Hthrown]]].
  - (* cancelled during the call *)
    subst r. rewrite (@catchBlock_cancelled n e w2 Hc2).
    exists (Throw cancelled), w2, ([ph] ++ evs). split; [reflexivity|].
    split; [rewrite Ht2, Ht1; same_list|].
    apply RoundCancelled; [exact Hc2|left; reflexivity|congruence|].
    apply cancelledLast_app; assumption.
  - destruct r as [parsed|e].
    + (* success *)
      exists (Ok (Some parsed)), w2, ([ph] ++ evs). split; [reflexivity|].
      split; [rewrite Ht2, Ht1; same_list|].
      apply RoundSuccess; [exact Hc2|congruence|].
      apply Forall_app. split; assumption.
    + (* failure *)
      destruct (@catchBlock_run n e w2 Hc2)
        as [r [w3 [evs3 [Hcatch [Ht3 Hcase]]]]].
      rewrite Hcatch. exists r, w3, (([ph] ++ evs) ++ evs3).
      split; [reflexivity|].
      split; [rewrite Ht3, Ht2, Ht1; same_list|].
      assert (Hb12 : Forall benign ([ph] ++ evs))
        by (apply Forall_app; split; assumption).
      destruct Hcase
        as [[-> [Hn [Hf3 Hd]]]
           | [[-> [Hname [Hc3 [-> Hf3]]]]
             | [-> [Hc3 [pre [p [-> [Hpre Hf3]]]]]]]].
      * destruct Hd as [[Hc3 Hb3] | [Hc3 Hl3]].
        -- apply RoundRetry; [exact Hc3|exact Hn|congruence|].
           apply Forall_app. split; assumption.
        -- apply RoundCancelled;
             [exact Hc3|right; split; [reflexivity|exact Hn]|congruence|].
           apply cancelledLast_app; assumption.
      * rewrite app_nil_r.
        destruct (Hthrown e eq_refl) as [Herr | Hrej].
        -- rewrite Herr in Hname. discriminate.
        -- eapply RoundAborted;
             [exact Hc3|congruence|exact Hb12|exact Hrej|exact Hname].
      * rewrite app_assoc. apply RoundFailed; [exact Hc3|exact Hf3|].
        apply Forall_app. split; assumption.
Qed.

(** ** The step executor: the whole step *)

(** How a step ends. *)
Inductive StepEnd (w : World) : Outcome -> World -> list Event -> Prop :=
| StepCancelled w' evs :
    cancelRequest w' = true ->
    failedStepInfo w' = failedStepInfo w ->
    cancelledLast evs ->
    StepEnd w (Throws cancelled) w' evs
| StepReturned parsed w' evs :
    cancelRequest w' = false ->
    failedStepInfo w' = failedStepInfo w ->
    Forall benign evs ->
    StepEnd w (Returns (Some parsed)) w' evs
| StepAborted k e w' evs :
    cancelRequest w' = false ->
    failedStepInfo w' = failedStepInfo w ->
    Forall benign evs ->
    transportEnd (env k) = Rejects e -> errorName e = js "AbortError" ->
    StepEnd w (Throws cancelled) w' evs
| StepFailed e w' pre p :
    cancelRequest w' = false ->
    failedStepInfo w' = Some p ->
    Forall benign pre ->
    StepEnd w (Throws e) w' (pre ++ [FailedStepInfoSet p]).

Lemma whileLoop_run (fuel : nat) :
  forall (n : nat) (w : World),
    n <= MAX_AUTO_RETRIES ->
    S MAX_AUTO_RETRIES <= fuel + n ->
    cancelRequest w = false ->
    exists (o : Outcome) (w' : World) (evs : list Event),
      whileLoop MAX_AUTO_RETRIES RETRY_DELAY_BASE_MS GEMINI_3_PRO_MODEL_ID
        props env args fuel n w = (o, w')
      /\ trace w' = trace w ++ evs
      /\ StepEnd w o w' evs.
Proof.
  induction fuel as [|fuel IH]; intros n w Hn Hfuel Hflag; [lia|].
  cbn [whileLoop].
  assert (Hle : Nat.leb n MAX_AUTO_RETRIES = true) by (apply Nat.leb_le; lia).
  rewrite Hle.
  destruct (@iteration_run n w Hflag) as [r [w1 [evs [Hrun [Ht Hend]]]]].
  rewrite Hrun.
  destruct Hend as [r w1 evs Hc Hr Hf Hl
                   | w1 evs Hc Hlt Hf Hb
                   | parsed w1 evs Hc Hf Hb
                   | e w1 evs Hc Hf Hb Hrej Hname
                   | e w1 pre p Hc Hf Hb].
  - destruct Hr as [-> | [-> Hlt]].
    + (* cancelled during the call *)
      exists (Throws cancelled), w1, evs. split; [reflexivity|].
      split; [exact Ht|]. apply StepCancelled; assumption.
    + (* cancelled during the delay: the next head throws *)
      destruct fuel as [|fuel]; [lia|].
      cbn [whileLoop].
      assert (Hle' : Nat.leb (S n) MAX_AUTO_RETRIES = true)
        by (apply Nat.leb_le; lia).
      rewrite Hle', (@iteration_cancelled (S n) w1 Hc).
      exists (Throws cancelled), w1, evs. split; [reflexivity|].
      split; [exact Ht|]. apply StepCancelled; assumption.
  - (* a retry with the flag down *)
    destruct (IH (S n) w1 ltac:(lia) ltac:(lia) Hc)
      as [o [w2 [evs2 [Hloop [Ht2 Hend]]]]].
    rewrite Hloop. exists o, w2, (evs ++ evs2). split; [reflexivity|].
    split; [rewrite Ht2, Ht; same_list|].
    destruct Hend as [w2 evs2 Hc2 Hf2 Hl2
                     | parsed w2 evs2 Hc2 Hf2 Hb2
                     | k e w2 evs2 Hc2 Hf2 Hb2 Hrej Hname
                     | e w2 pre p Hc2 Hf2 Hb2].
    + apply StepCancelled; [exact Hc2|congruence|].
      apply cancelledLast_app; assumption.
    + apply StepReturned; [exact Hc2|congruence|].
      apply Forall_app. split; assumption.
    + eapply StepAborted; [exact Hc2|congruence| |exact Hrej|exact Hname].
      apply Forall_app. split; assumption.
    + rewrite app_assoc. apply StepFailed; [exact Hc2|exact Hf2|].
      apply Forall_app. split; assumption.
  - exists (Returns (Some parsed)), w1, evs. split; [reflexivity|].
    split; [exact Ht|]. apply StepReturned; assumption.
  - exists (Throws cancelled), w1, evs. split; [reflexivity|].
    split; [exact Ht|]. eapply StepAborted; eassumption.
  - eexists (Throws e), w1, _. split; [reflexivity|].
    split; [exact Ht|]. apply StepFailed; assumption.
Qed.

Lemma executeStep_cancelled_at_once (w : World) :
  cancelRequest w = true ->
  executeStep MAX_AUTO_RETRIES RETRY_DELAY_BASE_MS GEMINI_3_PRO_MODEL_ID
    props env args w = (Throws cancelled, w).
Proof.
  intros H. unfold executeStep. cbn [whileLoop].
  rewrite (@iteration_cancelled 0 w H). reflexivity.
Qed.

Lemma executeStep_run (w : World) :
  cancelRequest w = false ->
  exists (o : Outcome) (w' : World) (evs : list Event),
    executeStep MAX_AUTO_RETRIES RETRY_DELAY_BASE_MS GEMINI_3_PRO_MODEL_ID
      props env args w = (o, w')
    /\ trace w' = trace w ++ evs
    /\ StepEnd w o w' evs.
Proof.
  intros Hflag. unfold executeStep.
  apply whileLoop_run; [lia|lia|exact Hflag].
Qed.

(** Every run of [executeStep] ends with a response or an error: the bound
    on the loop is not reached, and no null response is returned. *)
Lemma executeStep_ends (w : World) :
  (exists parsed,
     fst (executeStep MAX_AUTO_RETRIES RETRY_DELAY_BASE_MS
            GEMINI_3_PRO_MODEL_ID props env args w) = Returns (Some parsed))
  \/ (exists e,
        fst (executeStep MAX_AUTO_RETRIES RETRY_DELAY_BASE_MS
               GEMINI_3_PRO_MODEL_ID props env args w) = Throws e).
Proof.
  destruct (cancelRequest w) eqn:Hflag.
  - rewrite (@executeStep_cancelled_at_once w Hflag). right. eexists. reflexivity.
  - destruct (@executeStep_run w Hflag) as [o [w' [evs [-> [_ Hend]]]]].
    destruct Hend; [right|left|right|right]; eexists; reflexivity.
Qed.

End StepRuns.






(** ** The step executor: retries *)

(** A transport call fails: it resolves to a payload with an error tag, or
    it rejects with an error that is not an abort. *)
Definition failsb (t : TransportEnd) : bool :=
  match t with
  | Resolves p =>
    match resultError p with Some (_ :: _) => true | _ => false end
  | Rejects e => negb (str_eqb (errorName e) (js "AbortError"))
  end.

(** The message of the error that the [catch] block sees for it. *)
Definition failureMessage (t : TransportEnd) : str :=
  match t with
  | Resolves p =>
    match resultError p with
    | Some err =>
      if str_eqb err (js "AbortError") then errorMessage cancelled
      else orDefault (resultText p) (js "AI 响应错误")
    | None => []
    end
  | Rejects e => errorMessage e
  end.

Definition noError (p : AiResponsePayload) : bool :=
  match resultError p with Some (_ :: _) => false | _ => true end.

Definition placeholder (args : StepArgs) (msgId : nat) : ChatMessage :=
  {| id := msgId; text := []; sender := senderForStep args;
     purpose := purposeForStep args; durationMs := None; thoughts := None |}.

Definition retryNotice (msgId : nat) (message : str) : ChatMessage :=
  {| id := msgId; text := js "[重试] " ++ message; sender := System;
     purpose := SystemNotification; durationMs := None; thoughts := None |}.

(** The events of a step but the updates of messages. *)
Definition visible (evs : list Event) : list Event :=
  filter (fun e => negb (isUpdate e)) evs.

Lemma visible_app (a b : list Event) : visible (a ++ b) = visible a ++ visible b.
Proof. apply filter_app. Qed.

Lemma visible_updates (ups : list Event) :
  forallb isUpdate ups = true -> visible ups = [].
Proof.
  induction ups as [|e ups IH]; intros H; [reflexivity|].
  cbn in H. apply andb_true_iff in H. destruct H as [He Hu].
  cbn. rewrite He. cbn. exact (IH Hu).
Qed.

Section Retries.

Variable MAX_AUTO_RETRIES : nat.
Variable RETRY_DELAY_BASE_MS : Z.
Variable GEMINI_3_PRO_MODEL_ID : str.
Variable props : Props.
Variable env : Environment.
Variable args : StepArgs.

(** The block under [try] when the call fails and nobody cancels. *)
Lemma tryBlock_fails (n msgId : nat) (w : World) :
  cancelRequest w = false ->
  cancelDuringCall (env n) = None ->
  failsb (transportEnd (env n)) = true ->
  exists (e : JsError) (w' : World) (ups : list Event),
    tryBlock GEMINI_3_PRO_MODEL_ID props env args n msgId w = (Throw e, w')
    /\ str_eqb (errorName e) (js "AbortError") = false
    /\ errorMessage e = failureMessage (transportEnd (env n))
    /\ cancelRequest w' = false
    /\ idsIssued w' = idsIssued w
    /\ failedStepInfo w' = failedStepInfo w
    /\ forallb isUpdate ups = true
    /\ trace w'
       = trace w
         ++ TransportCalled (request GEMINI_3_PRO_MODEL_ID props args) :: ups.
Proof.
  intros Hflag Hcall Hfails.
  unfold tryBlock, callTransport, bind, modify, gets.
  rewrite Hcall.
  match goal with
  | |- context [streamAll ?i ?t ?th None ?cs ?w1] =>
    destruct (streamAll_run cs None i t th w1)
      as [w3 [ups [Hrun [Hi [Hf [Ht [Hc Hu]]]]]]]
  end.
  rewrite Hrun. cbn in Hc, Hi, Hf, Ht.
  rewrite <- app_assoc in Ht. cbn [app] in Ht.
  unfold ret.
  unfold failsb, failureMessage in *.
  destruct (transportEnd (env n)) as [p|e].
  - rewrite Hc, Hflag.
    destruct (resultError p) as [[|c err]|]; try discriminate.
    destruct (str_eqb (c :: err) (js "AbortError"));
      (do 2 eexists; exists ups; split; [reflexivity|];
       repeat split; try assumption; congruence).
  - exists e, w3, ups. split; [reflexivity|].
    apply negb_true_iff in Hfails.
    repeat split; try assumption; congruence.
Qed.

(** The block under [try] when the call gives a response and nobody
    cancels. *)
Lemma tryBlock_succeeds (n msgId : nat) (w : World) (p : AiResponsePayload) :
  cancelRequest w = false ->
  cancelDuringCall (env n) = None ->
  transportEnd (env n) = Resolves p ->
  noError p = true ->
  exists (w' : World) (ups : list Event),
    tryBlock GEMINI_3_PRO_MODEL_ID props env args n msgId w
    = (Ok (parseAIResponse (resultText p)), w')
    /\ cancelRequest w' = false
    /\ failedStepInfo w' = failedStepInfo w
    /\ forallb isUpdate ups = true
    /\ trace w'
       = trace w
         ++ TransportCalled (request GEMINI_3_PRO_MODEL_ID props args) :: ups.
Proof.
  intros Hflag Hcall Hend Hok.
  unfold tryBlock, callTransport, bind, modify, gets.
  rewrite Hcall.
  match goal with
  | |- context [streamAll ?i ?t ?th None ?cs ?w1] =>
    destruct (streamAll_run cs None i t th w1)
      as [w3 [ups [Hrun [Hi [Hf [Ht [Hc Hu]]]]]]]
  end.
  rewrite Hrun. cbn in Hc, Hi, Hf, Ht.
  rewrite <- app_assoc in Ht. cbn [app] in Ht.
  unfold ret. rewrite Hend, Hc, Hflag.
  unfold noError in Hok.
  assert (Hups : forallb isUpdate
                   (ups ++ [MessageUpdated msgId
                              (spokenText (parseAIResponse (resultText p)))])
                 = true)
    by (rewrite forallb_app, Hu; reflexivity).
  destruct (resultError p) as [[|c err]|]; try discriminate;
    (eexists; eexists (ups ++ [_]); split; [reflexivity|]; cbn;
     repeat split; [congruence|exact Hf|exact Hups|rewrite Ht; same_list]).
Qed.

(** The block under [catch] when a retry is due and nobody cancels. *)
Lemma catchBlock_retries (n : nat) (e : JsError) (w : World) :
  cancelRequest w = false ->
  str_eqb (errorName e) (js "AbortError") = false ->
  n < MAX_AUTO_RETRIES ->
  cancelDuringDelay (env n) = false ->
  exists w' : World,
    catchBlock MAX_AUTO_RETRIES RETRY_DELAY_BASE_MS props env args n e w
    = (Ok None, w')
    /\ cancelRequest w' = false
    /\ idsIssued w' = S (idsIssued w)
    /\ failedStepInfo w' = failedStepInfo w
    /\ trace w'
       = trace w
         ++ [MessageAdded (retryNotice (idsIssued w) (errorMessage e));
             Slept (RETRY_DELAY_BASE_MS * (Z.of_nat n + 1))].
Proof.
  intros Hflag Hname Hn Hdelay. apply Nat.ltb_lt in Hn.
  unfold catchBlock, bind at 1, gets. rewrite Hflag, Hname. cbn [orb].
  rewrite Hn. unfold sleep, userMayCancel, when. rewrite Hdelay.
  eexists. split; [reflexivity|]. cbn.
  repeat split; [exact Hflag|same_list].
Qed.

(** A failed attempt that is not the last, with no cancellation: the
    placeholder, the call, the updates of the stream, the notice and the
    delay. *)
Lemma iteration_fails (n : nat) (w : World) :
  cancelRequest w = false ->
  cancelDuringCall (env n) = None ->
  cancelDuringDelay (env n) = false ->
  failsb (transportEnd (env n)) = true ->
  n < MAX_AUTO_RETRIES ->
  exists (w' : World) (ups : list Event),
    iteration MAX_AUTO_RETRIES RETRY_DELAY_BASE_MS GEMINI_3_PRO_MODEL_ID props
      env args n w = (Ok None, w')
    /\ cancelRequest w' = false
    /\ idsIssued w' = S (S (idsIssued w))
    /\ failedStepInfo w' = failedStepInfo w
    /\ forallb isUpdate ups = true
    /\ trace w'
       = trace w
         ++ [MessageAdded (placeholder args (idsIssued w));
             TransportCalled (request GEMINI_3_PRO_MODEL_ID props args)]
         ++ ups
         ++ [MessageAdded (retryNotice (S (idsIssued w))
                             (failureMessage (transportEnd (env n))));
             Slept (RETRY_DELAY_BASE_MS * (Z.of_nat n + 1))].
Proof.
  intros Hflag Hcall Hdelay Hfails Hn.
  unfold iteration, bind at 1, gets. rewrite Hflag.
  unfold bind at 1, ret at 1, bind at 1.
  destruct (addMessage [] (senderForStep args) (purposeForStep args) w)
    as [rid w1] eqn:Eadd.
  unfold addMessage, generateUniqueId, bind, gets, modify, ret in Eadd.
  injection Eadd as <- <-.
  set (w1 := log _ _).
  assert (Hflag1 : cancelRequest w1 = false) by exact Hflag.
  assert (Hf1 : failedStepInfo w1 = failedStepInfo w) by reflexivity.
  assert (Hi1 : idsIssued w1 = S (idsIssued w)) by reflexivity.
  assert (Ht1 : trace w1
                = trace w ++ [MessageAdded (placeholder args (idsIssued w))])
    by reflexivity.
  clearbody w1.
  unfold tryCatch, bind at 1.
  destruct (@tryBlock_fails n (idsIssued w) w1 Hflag1 Hcall Hfails)
    as [e [w2 [ups [Hrun [Hname [Hmsg [Hc2 [Hi2 [Hf2 [Hu Ht2]]]]]]]]]].
  rewrite Hrun.
  destruct (@catchBlock_retries n e w2 Hc2 Hname Hn Hdelay)
    as [w3 [Hcatch [Hc3 [Hi3 [Hf3 Ht3]]]]].
  rewrite Hcatch. exists w3, ups. split; [reflexivity|].
  repeat split; [exact Hc3|congruence|congruence|exact Hu|].
  rewrite Ht3, Ht2, Ht1, Hi2, Hi1, Hmsg. same_list.
Qed.

(** An attempt that succeeds, with no cancellation: the placeholder, the
    call and the updates of the message. *)
Lemma iteration_succeeds (n : nat) (w : World) (p : AiResponsePayload) :
  cancelRequest w = false ->
  cancelDuringCall (env n) = None ->
  transportEnd (env n) = Resolves p ->
  noError p = true ->
  exists (w' : World) (ups : list Event),
    iteration MAX_AUTO_RETRIES RETRY_DELAY_BASE_MS GEMINI_3_PRO_MODEL_ID props
      env args n w = (Ok (Some (parseAIResponse (resultText p))), w')
    /\ cancelRequest w' = false
    /\ failedStepInfo w' = failedStepInfo w
    /\ forallb isUpdate ups = true
    /\ trace w'
       = trace w
         ++ [MessageAdded (placeholder args (idsIssued w));
             TransportCalled (request GEMINI_3_PRO_MODEL_ID props args)]
         ++ ups.
Proof.
  intros Hflag Hcall Hend Hok.
  unfold iteration, bind at 1, gets. rewrite Hflag.
  unfold bind at 1, ret at 1, bind at 1.
  destruct (addMessage [] (senderForStep args) (purposeForStep args) w)
    as [rid w1] eqn:Eadd.
  unfold addMessage, generateUniqueId, bind, gets, modify, ret in Eadd.
  injection Eadd as <- <-.
  set (w1 := log _ _).
  assert (Hflag1 : cancelRequest w1 = false) by exact Hflag.
  assert (Hf1 : failedStepInfo w1 = failedStepInfo w) by reflexivity.
  assert (Ht1 : trace w1
                = trace w ++ [MessageAdded (placeholder args (idsIssued w))])
    by reflexivity.
  clearbody w1.
  unfold tryCatch, bind at 1.
  destruct (@tryBlock_succeeds n (idsIssued w) w1 p Hflag1 Hcall Hend Hok)
    as [w2 [ups [Hrun [Hc2 [Hf2 [Hu Ht2]]]]]].
  rewrite Hrun. exists w2, ups. split; [reflexivity|].
  repeat split; [exact Hc2|congruence|exact Hu|].
  rewrite Ht2, Ht1. same_list.
Qed.

End Retries.

(** C8: with a budget of 2 retries, a transport that fails at the first two
    attempts and gives a response at the third, and no cancellation, the
    step returns the parsed response; leaving the updates of messages
    aside, its events are: a new placeholder and the call, the first retry
    notice and a delay of the base, a second new placeholder and the call,
    the second retry notice and a delay of twice the base, a third new
    placeholder and the call. The three placeholders have the ids [n],
    [n+2] and [n+4], the two notices [n+1] and [n+3]; no failure snapshot
    is written. *)
Theorem retry_twice_then_succeed
    (RETRY_DELAY_BASE_MS : Z) (GEMINI_3_PRO_MODEL_ID : str) (props : Props)
    (env : Environment) (args : StepArgs) (w : World) (p : AiResponsePayload) :
  cancelRequest w = false ->
  (forall k, k <= 2 ->
     cancelDuringCall (env k) = None /\ cancelDuringDelay (env k) = false) ->
  failsb (transportEnd (env 0)) = true ->
  failsb (transportEnd (env 1)) = true ->
  transportEnd (env 2) = Resolves p ->
  noError p = true ->
  let run := executeStep 2 RETRY_DELAY_BASE_MS GEMINI_3_PRO_MODEL_ID props
               env args w in
  let n := idsIssued w in
  let call := TransportCalled (request GEMINI_3_PRO_MODEL_ID props args) in
  fst run = Returns (Some (parseAIResponse (resultText p)))
  /\ visible (newEvents w (snd run))
     = [MessageAdded (placeholder args n); call;
        MessageAdded (retryNotice (n + 1) (failureMessage (transportEnd (env 0))));
        Slept (RETRY_DELAY_BASE_MS * 1);
        MessageAdded (placeholder args (n + 2)); call;
        MessageAdded (retryNotice (n + 3) (failureMessage (transportEnd (env 1))));
        Slept (RETRY_DELAY_BASE_MS * 2);
        MessageAdded (placeholder args (n + 4)); call]
  /\ failedStepInfo (snd run) = failedStepInfo w.
Proof.
  intros Hflag Hquiet Hf0 Hf1 Hend Hok run n call. subst run n call.
  destruct (Hquiet 0 ltac:(lia)) as [Hc0 Hd0].
  destruct (Hquiet 1 ltac:(lia)) as [Hc1 Hd1].
  destruct (Hquiet 2 ltac:(lia)) as [Hc2 _].
  unfold executeStep. cbn [whileLoop Nat.leb].
  destruct (@iteration_fails 2 RETRY_DELAY_BASE_MS GEMINI_3_PRO_MODEL_ID props
              env args 0 w Hflag Hc0 Hd0 Hf0 ltac:(lia))
    as [w1 [ups0 [-> [Hflag1 [Hi1 [Hs1 [Hu0 Ht1]]]]]]].
  destruct (@iteration_fails 2 RETRY_DELAY_BASE_MS GEMINI_3_PRO_MODEL_ID props
              env args 1 w1 Hflag1 Hc1 Hd1 Hf1 ltac:(lia))
    as [w2 [ups1 [-> [Hflag2 [Hi2 [Hs2 [Hu1 Ht2]]]]]]].
  destruct (@iteration_succeeds 2 RETRY_DELAY_BASE_MS GEMINI_3_PRO_MODEL_ID
              props env args 2 w2 p Hflag2 Hc2 Hend Hok)
    as [w3 [ups2 [-> [Hflag3 [Hs3 [Hu2 Ht3]]]]]].
  cbn [fst snd]. split; [reflexivity|]. split; [|congruence].
  rewrite Ht2, Ht1, <- !app_assoc in Ht3.
  rewrite (@newEvents_app _ _ _ Ht3).
  rewrite Hi2, Hi1.
  repeat (rewrite visible_app).
  rewrite (@visible_updates _ Hu0), (@visible_updates _ Hu1),
    (@visible_updates _ Hu2).
  replace (idsIssued w + 1) with (S (idsIssued w)) by lia.
  replace (idsIssued w + 2) with (S (S (idsIssued w))) by lia.
  replace (idsIssued w + 3) with (S (S (S (idsIssued w)))) by lia.
  replace (idsIssued w + 4) with (S (S (S (S (idsIssued w))))) by lia.
  reflexivity.
Qed.

(** A step of Cognito with the flash model, a world with no message, and
    three environments. *)
Definition cognitoStep : StepArgs :=
  {| stepIdentifierArg := js "cognito-initial";
     promptArg := js "What do you think?";
     modelDetailsForStep := flashModel;
     senderForStep := Cognito;
     purposeForStep := CognitoToMuse;
     imageApiPartForStep := None;
     userInputForFlowContext := Some (js "What do you think?");
     imageApiPartForFlowContext := None;
     discussionLogBeforeFailureContext := None;
     currentTurnIndexForResumeContext := None;
     previousAISignaledStopForResumeContext := None |}.

Definition freshWorld : World :=
  {| cancelRequest := false; messages := []; idsIssued := 0;
     failedStepInfo := None; isInternalDiscussionActive := true;
     globalApiKeyStatus :=
       {| isMissing := None; isInvalid := None; statusMessage := None |};
     trace := [] |}.

Definition quotaError : AiResponsePayload :=
  {| resultText := js "quota exceeded"; resultThoughts := None;
     resultDurationMs := 12; resultError := Some (js "AI Error") |}.

Definition helloPayload : AiResponsePayload :=
  {| resultText := helloReply; resultThoughts := Some (js "hm");
     resultDurationMs := 840; resultError := None |}.


Definition someDeltas : list Chunk :=
  [{| chunkText := Some (js "Hel"); chunkThoughts := Some (js "hm") |};
   {| chunkText := Some (js "lo"); chunkThoughts := None |}].

(** Two failures, then a response; nobody cancels. *)
Definition flakyEnv : Environment :=
  fun k =>
    match k with
    | 0 => {| chunks := []; transportEnd := Resolves quotaError;
              cancelDuringCall := None; cancelDuringDelay := false |}
    | 1 => {| chunks := someDeltas;
              transportEnd := Rejects (newError (js "network down"));
              cancelDuringCall := None; cancelDuringDelay := false |}
    | _ => {| chunks := someDeltas; transportEnd := Resolves helloPayload;
              cancelDuringCall := None; cancelDuringDelay := false |}
    end.



Lemma retry_twice_then_succeed_witness :
  fst (executeStep 2 1000 (js "gemini-3-pro") geminiProps flakyEnv cognitoStep
         freshWorld)
  = Returns (Some (parseAIResponse (resultText helloPayload)))
  /\ visible (newEvents freshWorld
                (snd (executeStep 2 1000 (js "gemini-3-pro") geminiProps
                        flakyEnv cognitoStep freshWorld)))
     = [MessageAdded (placeholder cognitoStep 0);
        TransportCalled (request (js "gemini-3-pro") geminiProps cognitoStep);
        MessageAdded (retryNotice 1 (js "quota exceeded"));
        Slept 1000;
        MessageAdded (placeholder cognitoStep 2);
        TransportCalled (request (js "gemini-3-pro") geminiProps cognitoStep);
        MessageAdded (retryNotice 3 (js "network down"));
        Slept 2000;
        MessageAdded (placeholder cognitoStep 4);
        TransportCalled (request (js "gemini-3-pro") geminiProps cognitoStep)]
  /\ failedStepInfo
       (snd (executeStep 2 1000 (js "gemini-3-pro") geminiProps flakyEnv
               cognitoStep freshWorld))
     = failedStepInfo freshWorld.
Proof.
  apply (@retry_twice_then_succeed 1000 (js "gemini-3-pro") geminiProps
           flakyEnv cognitoStep freshWorld helloPayload).
  - reflexivity.
  - intros k Hk. destruct k as [|[|[|k]]]; [split; reflexivity..|lia].
  - reflexivity.
  - reflexivity.
  - reflexivity.
  - reflexivity.
Defined.



